(** * A shallow embedding of the realtime relay in [src/api/index.ts]

    The relay keeps two registries, [onlineUsers] (an array) and [roomHost]
    (a [Map]), and reacts to the events of a socket.io server.  Every
    handler is embedded as a computation in a small state-and-log monad:
    the state holds the two registries together with the part of the
    socket.io server the handlers read and write (the connected sockets and
    the adapter's rooms), the log holds what the handler emitted, in
    program order, each emission together with the state it was made in.

    Of socket.io the model keeps what the handlers rely on: a room is a
    set of socket ids kept by the adapter and dropped when it gets empty;
    every socket joins, at connect time, the room named by its own id,
    which is how [socket.to(id)] reaches one socket; [socket.to(room)]
    leaves out the members of the room named by the sender's id; a socket
    has left its rooms and the server's table when its [disconnect]
    handler runs.

    The chat handler reads the clock; the date string it makes of the
    reading is embedded from the definitions of ECMAScript.  The rules of
    cross-origin admission are embedded with the fragment of regular
    expressions that the wildcard rules can produce. *)

From Stdlib Require Import NArith ZArith Ascii String.
From stdpp Require Import gmap list strings fin_maps fin_sets.

(* stdpp's solvers clear hypotheses that may already be gone *)
#[local] Set Warnings "-clear-no-such-hyp".

Local Open Scope N_scope.

(** ** JavaScript values *)

(** A JavaScript string is a sequence of UTF-16 code units. *)
Abbreviation str := (list N).

(** Code units of an ASCII literal, for readable examples. *)
Definition js (s : string) : str :=
  (λ a, N_of_ascii a) <$> list_ascii_of_string s.

(** [!s] for a string [s]: only the empty string is falsy. *)
Definition falsy (s : str) : bool :=
  match s with
  | [] => true
  | _ :: _ => false
  end.

(** The payloads of the signaling events are typed [any]; the handlers
    only test their truthiness and pass them on.  Numbers are kept as
    integers plus [NaN]: for the truthiness test every other number
    behaves like a non-zero integer. *)
Inductive JsVal :=
| JUndefined
| JNull
| JBool (b : bool)
| JNum (z : Z)
| JNaN
| JStr (s : str)
| JObj (fields : JsFields)
with JsFields :=
| FNil
| FCons (key : str) (value : JsVal) (rest : JsFields).

Definition truthy (v : JsVal) : bool :=
  match v with
  | JUndefined | JNull | JNaN => false
  | JBool b => b
  | JNum z => negb (z =? 0)%Z
  | JStr s => negb (falsy s)
  | JObj _ => true
  end.

(** [String.prototype.trim]: strips the ECMAScript WhiteSpace and
    LineTerminator code points from both ends. *)
Definition is_white_space (c : N) : bool :=
  ((9 <=? c) && (c <=? 13)) || (c =? 32) || (c =? 160) || (c =? 5760)
  || ((8192 <=? c) && (c <=? 8202)) || (c =? 8232) || (c =? 8233)
  || (c =? 8239) || (c =? 8287) || (c =? 12288) || (c =? 65279).

Fixpoint trimStart (s : str) : str :=
  match s with
  | c :: s' => if is_white_space c then trimStart s' else s
  | [] => []
  end.

Definition trimEnd (s : str) : str := reverse (trimStart (reverse s)).

Definition trim (s : str) : str := trimEnd (trimStart s).

(** ** Data model *)

(** [type OnlineUser = { socketId: string; userId: string }] *)
Record OnlineUser := { socketId : str; userId : str }.

(** [type ChatMessagePayload]; the handler guards both the payload and its
    [message] with [?.], and [userId] with [||], so each may be absent. *)
Record ChatMessagePayload := {
  payload_userId : option str;
  payload_message : option str;
  payload_timestamp : option str
}.

(** [outgoingMessage] of the chat handler. *)
Record OutgoingMessage := {
  out_userId : str;
  out_message : str;
  out_timestamp : str
}.

#[global] Instance OnlineUser_eq_dec : EqDecision OnlineUser.
Proof. solve_decision. Defined.

(** The server state: the two module-level registries, and the two tables
    of the socket.io server that the handlers use ([io.sockets.sockets]
    and [io.sockets.adapter.rooms]). *)
Record State := {
  onlineUsers : list OnlineUser;
  roomHost : gmap str str;
  sockets : gset str;
  rooms : gmap str (gset str)
}.

Definition initial : State :=
  {| onlineUsers := []; roomHost := ∅; sockets := ∅; rooms := ∅ |}.

(** Events sent by the server. *)
Inductive OutEvent :=
| usersOnline (users : list OnlineUser)
| chat_message (m : OutgoingMessage)
| rtc_joined (from : str)
| rtc_left (from : str)
| rtc_offer (from : str) (offer : JsVal)
| rtc_answer (from : str) (answer : JsVal)
| rtc_ice (from : str) (candidate : JsVal)
| meeting_ended
| meeting_end_denied.

(** The four ways the handlers address an emission:
    [io.emit], [io.to(room).emit], [socket.to(room).emit], [socket.emit]. *)
Inductive Target :=
| io_emit
| io_to (room : str)
| socket_to (sid : str) (room : str)
| socket_emit (sid : str).

(** One emission, with the state it was made in. *)
Record Sent := {
  sent_at : State;
  sent_target : Target;
  sent_event : OutEvent
}.

(** Members of a room; a room absent from the adapter has none. *)
Definition members (st : State) (room : str) : gset str :=
  default ∅ (rooms st !! room).

(** Who receives an emission: everybody connected, the members of a room,
    or the socket itself.  [socket.to(room)] is a broadcast to [room] with
    the room named [socket.id] as the exception: the adapter leaves out
    every socket that is in that room, not the sender as such.  So a
    member of [room] that sits in the sender's id room gets nothing, and
    a sender whose id room is gone is not left out. *)
Definition recipients (st : State) (t : Target) : gset str :=
  match t with
  | io_emit => sockets st
  | io_to room => members st room
  | socket_to sid room => members st room ∖ members st sid
  | socket_emit sid => {[sid]}
  end.

Definition delivered_to (e : Sent) : gset str :=
  recipients (sent_at e) (sent_target e).

(** ** The handler monad: state passing plus an emission log *)

Definition M (A : Type) : Type := State → A * State * list Sent.

#[global] Instance M_ret : MRet M := λ A (a : A) st, (a, st, []).

#[global] Instance M_bind : MBind M := λ A B (k : A → M B) (c : M A) st,
  let '(a, st1, out1) := c st in
  let '(b, st2, out2) := k a st1 in
  (b, st2, out1 ++ out2).

Definition get : M State := λ st, (st, st, []).
Definition put (st : State) : M unit := λ _, ((), st, []).
Definition emit (t : Target) (e : OutEvent) : M unit :=
  λ st, ((), st, [{| sent_at := st; sent_target := t; sent_event := e |}]).
Definition skip : M unit := mret ().

Definition exec (c : M unit) (st : State) : State := (c st).1.2.
Definition output (c : M unit) (st : State) : list Sent := (c st).2.

Definition set_onlineUsers (l : list OnlineUser) : M unit :=
  st ← get;
  put {| onlineUsers := l; roomHost := roomHost st;
         sockets := sockets st; rooms := rooms st |}.

Definition set_roomHost (m : gmap str str) : M unit :=
  st ← get;
  put {| onlineUsers := onlineUsers st; roomHost := m;
         sockets := sockets st; rooms := rooms st |}.

Definition set_sockets (s : gset str) : M unit :=
  st ← get;
  put {| onlineUsers := onlineUsers st; roomHost := roomHost st;
         sockets := s; rooms := rooms st |}.

Definition set_rooms (r : gmap str (gset str)) : M unit :=
  st ← get;
  put {| onlineUsers := onlineUsers st; roomHost := roomHost st;
         sockets := sockets st; rooms := r |}.

(** [for (const x of xs) body(x)] *)
Fixpoint for_each {A} (xs : list A) (body : A → M unit) : M unit :=
  match xs with
  | [] => skip
  | x :: xs' => body x;; for_each xs' body
  end.

(** ** The socket.io primitives the handlers call *)

(** [socket.join(room)]: the adapter adds the socket to the room's set,
    creating the set when the room is new. *)
Definition socket_join (sid room : str) : M unit :=
  st ← get;
  set_rooms (<[room := {[sid]} ∪ members st room]> (rooms st)).

(** The adapter's [del]: removes the socket from the room's set and drops
    the room once its set is empty; nothing happens for an unknown room. *)
Definition adapter_del (sid room : str) (r : gmap str (gset str))
  : gmap str (gset str) :=
  match r !! room with
  | None => r
  | Some s =>
      let s' := s ∖ {[sid]} in
      if decide (s' = ∅) then delete room r else <[room := s']> r
  end.

(** [socket.leave(room)] *)
Definition socket_leave (sid room : str) : M unit :=
  st ← get;
  set_rooms (adapter_del sid room (rooms st)).

(** What socket.io has done to its tables when the [connection] handler
    starts: the socket is registered and has joined the room named by its
    own id. *)
Definition transport_connect (sid : str) : M unit :=
  st ← get;
  set_sockets ({[sid]} ∪ sockets st);;
  socket_join sid sid.

(** What socket.io has done when the [disconnect] handler starts: the
    socket has left every room, a room it was alone in is gone, and the
    socket is no longer registered. *)
Definition dropped (sid : str) (st : State) : State :=
  {| onlineUsers := onlineUsers st; roomHost := roomHost st;
     sockets := sockets st ∖ {[sid]};
     rooms := omap (λ s, let s' := s ∖ {[sid]} in
                         if decide (s' = ∅) then None else Some s')
                   (rooms st) |}.

Definition transport_disconnect (sid : str) : M unit :=
  st ← get;
  put (dropped sid st).

(** ** Array helpers *)

(** [Array.prototype.findIndex]; [None] stands for [-1]. *)
Definition findIndex {A} (P : A → Prop) `{∀ x, Decision (P x)}
  (l : list A) : option nat := fst <$> list_find P l.

(** [Array.prototype.find]; [None] stands for [undefined]. *)
Definition find {A} (P : A → Prop) `{∀ x, Decision (P x)}
  (l : list A) : option A := snd <$> list_find P l.

(** [Array.prototype.some] *)
Definition some {A} (P : A → Prop) `{∀ x, Decision (P x)}
  (l : list A) : bool := bool_decide (Exists P l).

(** ** The event handlers, in source order *)

(** [io.on("connection", ...)], lines 59-61. *)
Definition on_connection (sid : str) : M unit :=
  st ← get;
  set_onlineUsers (onlineUsers st ++ [{| socketId := sid; userId := [] |}]);;
  st ← get;
  emit io_emit (usersOnline (onlineUsers st)).

(** The array that lines 75-87 of the [newUser] handler leave: the entry
    of the socket is overwritten when there is one; otherwise an entry is
    appended when no entry bears the userId, and the entries that bear it
    are re-pointed to the socket when some do. *)
Definition announced (sid userId0 : str) (l : list OnlineUser)
  : list OnlineUser :=
  let existingUserIndex := findIndex (λ user, socketId user = sid) l in
  match existingUserIndex with
  | Some i => <[i := {| socketId := sid; userId := userId0 |}]> l
  | None =>
      if negb (some (λ user, userId user = userId0) l) then
        l ++ [{| socketId := sid; userId := userId0 |}]
      else
        (λ user, if decide (userId user = userId0)
                 then {| socketId := sid; userId := userId0 |}
                 else user) <$> l
  end.

(** [socket.on("newUser", ...)], lines 70-90. *)
Definition on_newUser (sid : str) (userId0 : str) : M unit :=
  if falsy userId0 then skip
  else
    st ← get;
    set_onlineUsers (announced sid userId0 (onlineUsers st));;
    st ← get;
    emit io_emit (usersOnline (onlineUsers st)).

(** [a || b] on strings where the left operand may be [undefined]. *)
Definition or_else (a : option str) (b : str) : str :=
  match a with
  | Some s => if falsy s then b else s
  | None => b
  end.

(** [payload?.message?.trim()]; [None] stands for [undefined]. *)
Definition trimmedMessage (payload : option ChatMessagePayload) : option str :=
  trim <$> (payload ≫= payload_message).

(** [onlineUsers.find(user => user.socketId === socket.id) ?? null] *)
Definition sender_of (st : State) (sid : str) : option OnlineUser :=
  find (λ user, socketId user = sid) (onlineUsers st).

(** [socket.on("chat:message", ...)], lines 92-115.  [now] is the value of
    [new Date().toISOString()] at the time of the call. *)
Definition on_chat_message (sid : str) (payload : option ChatMessagePayload)
  (now : str) : M unit :=
  match payload, trimmedMessage payload with
  | Some payload, Some trimmedMessage =>
      if falsy trimmedMessage then skip
      else
        st ← get;
        let sender := sender_of st sid in
        let outgoingMessage :=
          {| out_userId :=
               or_else (payload_userId payload)
                 (or_else (userId <$> sender) sid);
             out_message := trimmedMessage;
             out_timestamp := default now (payload_timestamp payload) |} in
        emit io_emit (chat_message outgoingMessage)
  | _, _ => skip
  end.

(** [socket.on('rtc:join', ...)], lines 118-125. *)
Definition on_rtc_join (sid room : str) : M unit :=
  if falsy room then skip
  else
    socket_join sid room;;
    st ← get;
    (if negb (bool_decide (is_Some (roomHost st !! room))) then
       set_roomHost (<[room := sid]> (roomHost st))
     else skip);;
    emit (socket_to sid room) (rtc_joined sid).

(** [socket.on('rtc:leave', ...)], lines 127-131. *)
Definition on_rtc_leave (sid room : str) : M unit :=
  if falsy room then skip
  else
    socket_leave sid room;;
    emit (socket_to sid room) (rtc_left sid).

(** [socket.on('rtc:offer', ...)], lines 133-136. *)
Definition on_rtc_offer (sid room to : str) (offer : JsVal) : M unit :=
  if falsy room || falsy to || negb (truthy offer) then skip
  else emit (socket_to sid to) (rtc_offer sid offer).

(** [socket.on('rtc:answer', ...)], lines 138-141. *)
Definition on_rtc_answer (sid room to : str) (answer : JsVal) : M unit :=
  if falsy room || falsy to || negb (truthy answer) then skip
  else emit (socket_to sid to) (rtc_answer sid answer).

(** [socket.on('rtc:ice', ...)], lines 143-146. *)
Definition on_rtc_ice (sid room to : str) (candidate : JsVal) : M unit :=
  if falsy room || falsy to || negb (truthy candidate) then skip
  else emit (socket_to sid to) (rtc_ice sid candidate).

(** [socket.on('meeting:end', ...)], lines 149-168.  The loop runs over the
    room's set while [leave] shrinks it; a JavaScript [Set] iterator still
    visits every element that was not removed before its turn, and each
    turn removes only its own element, so the loop visits the members the
    room had when it started.  [leave_client] is the body of that loop:
    [io.sockets.sockets.get(clientId)?.leave(room)]. *)
Definition leave_client (room clientId : str) : M unit :=
  st ← get;
  if decide (clientId ∈ sockets st)
  then socket_leave clientId room
  else skip.

Definition on_meeting_end (sid room : str) : M unit :=
  if falsy room then skip
  else
    st ← get;
    let hostId := roomHost st !! room in
    match hostId with
    | Some h =>
        if negb (falsy h) && bool_decide (h = sid) then
          emit (io_to room) meeting_ended;;
          set_roomHost (delete room (roomHost st));;
          st ← get;
          match rooms st !! room with
          | Some clients => for_each (elements clients) (leave_client room)
          | None => skip
          end
        else emit (socket_emit sid) meeting_end_denied
    | None => emit (socket_emit sid) meeting_end_denied
    end.

(** [socket.on('meeting:leave', ...)], lines 170-174. *)
Definition on_meeting_leave (sid room : str) : M unit :=
  if falsy room then skip
  else
    socket_leave sid room;;
    emit (socket_to sid room) (rtc_left sid).

(** [socket.on("disconnect", ...)], lines 176-190.  Deleting the current
    entry of a [Map] while iterating over it is well defined: the loop
    still visits every other entry.  [release_slot] is the body of the
    loop. *)
Definition release_slot (sid : str) (entry : str * str) : M unit :=
  let '(room, hostId) := entry in
  if decide (hostId = sid)
  then st ← get; set_roomHost (delete room (roomHost st))
  else skip.

Definition on_disconnect (sid : str) : M unit :=
  st ← get;
  set_onlineUsers (filter (λ user, socketId user ≠ sid) (onlineUsers st));;
  st ← get;
  emit io_emit (usersOnline (onlineUsers st));;
  st ← get;
  for_each (map_to_list (roomHost st)) (release_slot sid).

(** ** Events and runs *)

(** What a client (or the transport, for the two lifecycle events) can
    make the server process on behalf of socket [sid]. *)
Inductive Event :=
| Connection
| NewUser (userId0 : str)
| ChatSend (payload : option ChatMessagePayload) (now : str)
| RtcJoin (room : str)
| RtcLeave (room : str)
| RtcOffer (room to : str) (offer : JsVal)
| RtcAnswer (room to : str) (answer : JsVal)
| RtcIce (room to : str) (candidate : JsVal)
| MeetingEnd (room : str)
| MeetingLeave (room : str)
| Disconnect.

Definition handle (sid : str) (ev : Event) : M unit :=
  match ev with
  | Connection => transport_connect sid;; on_connection sid
  | NewUser u => on_newUser sid u
  | ChatSend payload now => on_chat_message sid payload now
  | RtcJoin room => on_rtc_join sid room
  | RtcLeave room => on_rtc_leave sid room
  | RtcOffer room to offer => on_rtc_offer sid room to offer
  | RtcAnswer room to answer => on_rtc_answer sid room to answer
  | RtcIce room to candidate => on_rtc_ice sid room to candidate
  | MeetingEnd room => on_meeting_end sid room
  | MeetingLeave room => on_meeting_leave sid room
  | Disconnect => transport_disconnect sid;; on_disconnect sid
  end.

(** One event is processed to completion before the next one. *)
Definition run (evs : list (str * Event)) : M unit :=
  for_each evs (λ '(sid, ev), handle sid ev).

(** The transport hands out a fresh, non-empty id at connect time and
    delivers the other events only for sockets that are connected. *)
Definition enabled (st : State) (sid : str) (ev : Event) : Prop :=
  match ev with
  | Connection => sid ≠ [] ∧ sid ∉ sockets st
  | _ => sid ∈ sockets st
  end.

(** The invariant of the reachable states: hosts are connected sockets,
    the sockets are exactly the ids listed in [onlineUsers], each once, no
    id is empty, rooms hold connected sockets only, and no host is
    recorded for the empty room name. *)
Record inv (st : State) : Prop := {
  inv_hosts : ∀ r h, roomHost st !! r = Some h → h ∈ sockets st;
  inv_presence : ∀ s, s ∈ sockets st ↔ s ∈ socketId <$> onlineUsers st;
  inv_unique : NoDup (socketId <$> onlineUsers st);
  inv_ids : [] ∉ sockets st;
  inv_members : ∀ r s, rooms st !! r = Some s → s ⊆ sockets st;
  inv_named : ∀ r, is_Some (roomHost st !! r) → r ≠ []
}.

Inductive reachable : State → Prop :=
| reachable_initial : reachable initial
| reachable_step st sid ev :
    reachable st → enabled st sid ev → reachable (exec (handle sid ev) st).

#[global] Instance enabled_dec st sid ev : Decision (enabled st sid ev).
Proof. destruct ev; simpl; apply _. Defined.

(** Every event of the run is enabled in the state it is processed in. *)
Fixpoint all_enabled (evs : list (str * Event)) (st : State) : bool :=
  match evs with
  | [] => true
  | (sid, ev) :: evs' =>
      bool_decide (enabled st sid ev)
      && all_enabled evs' (exec (handle sid ev) st)
  end.

(** A host is connected when its id is a registered socket and has an
    entry in [onlineUsers]. *)
Definition hosts_connected (st : State) : Prop :=
  ∀ r h, roomHost st !! r = Some h →
    h ∈ sockets st ∧ ∃ user, user ∈ onlineUsers st ∧ socketId user = h.

(** Socket [c] has no entry in [onlineUsers] and holds no host slot. *)
Definition cleaned_up (c : str) (st : State) : Prop :=
  (c ∉ socketId <$> onlineUsers st) ∧ ∀ r, roomHost st !! r ≠ Some c.

(** The entries of [onlineUsers] that bear the userId [u]. *)
Definition bearing (u : str) (st : State) : list OnlineUser :=
  filter (λ user, userId user = u) (onlineUsers st).

(** The join events of the connections [cs], in order, all on [room]. *)
Definition joins (room : str) (cs : list str) : list (str * Event) :=
  (λ c, (c, RtcJoin room)) <$> cs.

(** ** Two small scenarios *)

Definition sock1 : str := js "s1".
Definition sock2 : str := js "s2".
Definition sock3 : str := js "s3".
Definition room1 : str := js "r1".
Definition room2 : str := js "r2".

(** Two sockets are connected and nothing else has happened. *)
Definition two_connected : State :=
  exec (run [(sock1, Connection); (sock2, Connection)]) initial.

(** [sock1] has opened the rooms [room1] and [room2], and [sock2] has
    joined [room1]. *)
Definition hosted : State :=
  exec (run [(sock1, RtcJoin room1); (sock1, RtcJoin room2);
             (sock2, RtcJoin room1)])
    two_connected.


(** A session description, as a client sends it in an offer. *)
Definition sdp : JsVal :=
  JObj (FCons (js "type") (JStr (js "offer"))
         (FCons (js "sdp") (JStr (js "v=0")) FNil)).

(** A chat payload that carries only a message. *)
Definition text_only (msg : string) : ChatMessagePayload :=
  {| payload_userId := None; payload_message := Some (js msg);
     payload_timestamp := None |}.

(** ** Cross-origin admission, lines 4-27 *)

(** [String.prototype.split(",")]: the first piece and the pieces after
    it; there is always a first piece, empty for the empty string. *)
Fixpoint split_comma (s : str) : str * list str :=
  match s with
  | [] => ([], [])
  | c :: s' =>
      let '(w, ws) := split_comma s' in
      if c =? 44 then ([], w :: ws) else (c :: w, ws)
  end.

Definition split (s : str) : list str :=
  let '(w, ws) := split_comma s in w :: ws.

(** [origins], lines 4-7, as a function of [process.env.ORIGIN]
    ([None] when the variable is not set); [filter(Boolean)] keeps the
    non-empty strings. *)
Definition origins (ORIGIN : option str) : list str :=
  filter (λ s, s ≠ []) (trim <$> split (default [] ORIGIN)).

(** The characters of the class in [/[.+?^${}()|[\]\\]/g], line 16:
    [. + ? ^ $ { } ( ) | [ ] \]. *)
Definition is_escaped_by_rule (c : N) : bool :=
  (c =? 46) || (c =? 43) || (c =? 63) || (c =? 94) || (c =? 36)
  || (c =? 123) || (c =? 125) || (c =? 40) || (c =? 41) || (c =? 124)
  || (c =? 91) || (c =? 93) || (c =? 92).

(** [rule.replace(/[.+?^${}()|[\]\\]/g, "\\$&")]: a backslash is put
    before every character of the class. *)
Definition escape_special (rule : str) : str :=
  c ← rule; if is_escaped_by_rule c then [92; c] else [c].

(** [.replace(/\\\*/g, ".*")]: every backslash that is followed by a
    star is replaced, with the star, by [.*], scanning from the left. *)
Fixpoint replace_escaped_star (s : str) : str :=
  match s with
  | [] => []
  | c :: s1 =>
      match s1 with
      | d :: s2 =>
          if (c =? 92) && (d =? 42)
          then 46 :: 42 :: replace_escaped_star s2
          else c :: replace_escaped_star s1
      | [] => [c]
      end
  end.

(** [escaped], line 16. *)
Definition escaped (rule : str) : str :=
  replace_escaped_star (escape_special rule).

(** The part of the regular-expression syntax that [escaped] can produce:
    a pattern character, a syntax character after a backslash (which
    stands for itself), and the quantifier [*]. *)
Inductive token :=
| TLit (c : N)
| TStar.

(** The syntax characters of a pattern: the class above and [*]. *)
Definition is_syntax_character (c : N) : bool :=
  is_escaped_by_rule c || (c =? 42).

(** The tokens of a pattern source; [None] for a source outside the part
    of the syntax that is modelled (a backslash before anything but a
    syntax character, a syntax character other than [*] on its own). *)
Fixpoint tokens (s : str) : option (list token) :=
  match s with
  | [] => Some []
  | c :: s1 =>
      if c =? 92 then
        match s1 with
        | d :: s2 =>
            if is_syntax_character d then (TLit d ::.) <$> tokens s2
            else None
        | [] => None
        end
      else if c =? 42 then (TStar ::.) <$> tokens s1
      else if is_syntax_character c then None
      else (TLit c ::.) <$> tokens s1
  end.

(** The terms of a pattern: a character, repeated or not.  [None] when a
    [*] has nothing to repeat, at the start (after [^]) or after another
    [*]: the pattern is then invalid. *)
Fixpoint terms (ts : list token) : option (list (N * bool)) :=
  match ts with
  | [] => Some []
  | TStar :: _ => None
  | TLit c :: ts1 =>
      match ts1 with
      | TStar :: ts2 => ((c, true) ::.) <$> terms ts2
      | _ => ((c, false) ::.) <$> terms ts1
      end
  end.

(** What [new RegExp(`^${escaped}$`)] gives. *)
Inductive RegExp :=
| Compiled (p : list (N * bool))
| SyntaxError
| Unmodelled.

Definition new_RegExp_anchored (source : str) : RegExp :=
  match tokens source with
  | None => Unmodelled
  | Some ts =>
      match terms ts with
      | None => SyntaxError
      | Some p => Compiled p
      end
  end.

(** [re.test(s)] for a compiled pattern between [^] and [$]: the terms
    have to consume the whole string, a repeated character any number of
    times. *)
Fixpoint test (p : list (N * bool)) (s : str) {struct p} : bool :=
  match p with
  | [] => bool_decide (s = [])
  | (c, false) :: p' =>
      match s with
      | d :: s' => (d =? c) && test p' s'
      | [] => false
      end
  | (c, true) :: p' =>
      (fix star (s : str) : bool :=
         test p' s
         || match s with
            | d :: s' => (d =? c) && star s'
            | [] => false
            end) s
  end.

(** [".netlify.app"] *)
Definition netlify_app : str := js ".netlify.app".

(** [s.endsWith(t)] *)
Definition endsWith (s t : str) : bool := bool_decide (t `suffix_of` s).

(** [s.includes("*")] *)
Definition includes_star (s : str) : bool := bool_decide (42 ∈ s).

(** What a call returns or throws. *)
Inductive outcome :=
| Returns (b : bool)
| Throws
| OutsideModel.

(** The loop of [isAllowedOrigin], lines 12-26, over the rules that are
    left. *)
Fixpoint check_rules (rules : list str) (requestOrigin : str) : outcome :=
  match rules with
  | [] => Returns false
  | rule :: rest =>
      if bool_decide (rule = [42]) then Returns true
      else if includes_star rule then
        match new_RegExp_anchored (escaped rule) with
        | Compiled re =>
            if test re requestOrigin then Returns true
            else check_rules rest requestOrigin
        | SyntaxError => Throws
        | Unmodelled => OutsideModel
        end
      else if bool_decide (requestOrigin = rule) then Returns true
      else if endsWith rule netlify_app && endsWith requestOrigin netlify_app
      then Returns true
      else check_rules rest requestOrigin
  end.

(** [isAllowedOrigin], lines 9-27; the module constant [origins] is an
    argument, [None] is an origin that is [null] or [undefined]. *)
Definition isAllowedOrigin (rules : list str) (requestOrigin : option str)
  : outcome :=
  match requestOrigin with
  | None => Returns true
  | Some o =>
      if falsy o then Returns true
      else if bool_decide (rules = []) then Returns true
      else check_rules rules o
  end.

(** What [escaped] is, read off the rule: every character stands for
    itself, a star repeats, and a backslash before a star has become a
    dot. *)
Fixpoint rule_tokens (rule : str) : list token :=
  match rule with
  | [] => []
  | c :: r1 =>
      if c =? 92 then
        match r1 with
        | d :: r2 =>
            if d =? 42 then TLit 46 :: TStar :: rule_tokens r2
            else TLit 92 :: rule_tokens r1
        | [] => [TLit 92]
        end
      else if c =? 42 then TStar :: rule_tokens r1
      else TLit c :: rule_tokens r1
  end.

(** The terms of the pattern of a rule, read off the rule: a star repeats
    the character before it, which is a dot when that character is a
    backslash; [None] when a star has no character before it. *)
Fixpoint rule_terms (rule : str) : option (list (N * bool)) :=
  match rule with
  | [] => Some []
  | c :: r1 =>
      if c =? 42 then None
      else
        match r1 with
        | d :: r2 =>
            if d =? 42
            then (((if c =? 92 then 46 else c), true) ::.) <$> rule_terms r2
            else ((c, false) ::.) <$> rule_terms r1
        | [] => Some [(c, false)]
        end
  end.

(** Two stars in a row somewhere in the string. *)
Fixpoint has_double_star (s : str) : bool :=
  match s with
  | [] => false
  | c :: s1 =>
      match s1 with
      | d :: _ => ((c =? 42) && (d =? 42)) || has_double_star s1
      | [] => false
      end
  end.

(** A rule whose pattern has a star with nothing to repeat: the rule
    starts with a star or has two stars in a row. *)
Definition nothing_to_repeat (rule : str) : bool :=
  match rule with
  | c :: _ => (c =? 42) || has_double_star rule
  | [] => false
  end.

(** The adapter keeps no empty room. *)
Definition no_empty_room (st : State) : Prop :=
  ∀ r s, rooms st !! r = Some s → s ≠ ∅.

(** Some emission of the log is the presence update that carries [l] to
    everybody. *)
Definition broadcasts (l : list OnlineUser) (out : list Sent) : Prop :=
  ∃ e, e ∈ out ∧ sent_target e = io_emit ∧ sent_event e = usersOnline l.

(** A string that neither starts nor ends with white space. *)
Definition trimmed (s : str) : Prop :=
  (∀ c, head s = Some c → is_white_space c = false)
  ∧ (∀ c, last s = Some c → is_white_space c = false).

(** An entry as [origins] keeps them: not empty, without comma, without
    white space at either end. *)
Definition is_entry (e : str) : Prop := e ≠ [] ∧ (44 ∉ e) ∧ trimmed e.

(** [entries.join(",")] *)
Fixpoint join_comma (entries : list str) : str :=
  match entries with
  | [] => []
  | [e] => e
  | e :: rest => e ++ 44 :: join_comma rest
  end.

(** ** [new Date().toISOString()], line 105 *)

(** [s < t] on strings: the order of the code units, a proper prefix
    first. *)
Fixpoint str_ltb (s t : str) : bool :=
  match s, t with
  | _, [] => false
  | [], _ :: _ => true
  | a :: s', b :: t' => (a <? b) || ((a =? b) && str_ltb s' t')
  end.

(** The time value [t] of a date is a number of milliseconds since the
    start of 1970, UTC; [new Date()] takes it from the clock.  The
    functions below are the abstract operations of ECMAScript on time
    values, [/] and [mod] rounding down as its [floor] and [modulo] do. *)
Section time_values.
Local Open Scope Z_scope.

Definition msPerDay : Z := 86400000.

Definition Day (t : Z) : Z := t / msPerDay.

Definition DaysInYear (y : Z) : Z :=
  if negb (y mod 4 =? 0) then 365
  else if negb (y mod 100 =? 0) then 366
  else if negb (y mod 400 =? 0) then 365
  else 366.

Definition DayFromYear (y : Z) : Z :=
  365 * (y - 1970) + (y - 1969) / 4 - (y - 1901) / 100 + (y - 1601) / 400.

(** The largest [y] with [DayFromYear y <= Day t]: the quotient by the
    mean length of a year is at most one year off. *)
Definition YearFromTime (t : Z) : Z :=
  let d := Day t in
  let y := 1970 + d * 400 / 146097 in
  if d <? DayFromYear y then y - 1
  else if DayFromYear (y + 1) <=? d then y + 1
  else y.

Definition InLeapYear (t : Z) : Z :=
  if DaysInYear (YearFromTime t) =? 366 then 1 else 0.

Definition DayWithinYear (t : Z) : Z := Day t - DayFromYear (YearFromTime t).

Definition MonthFromTime (t : Z) : Z :=
  let d := DayWithinYear t in
  let L := InLeapYear t in
  if d <? 31 then 0
  else if d <? 59 + L then 1
  else if d <? 90 + L then 2
  else if d <? 120 + L then 3
  else if d <? 151 + L then 4
  else if d <? 181 + L then 5
  else if d <? 212 + L then 6
  else if d <? 243 + L then 7
  else if d <? 273 + L then 8
  else if d <? 304 + L then 9
  else if d <? 334 + L then 10
  else 11.

Definition DateFromTime (t : Z) : Z :=
  let d := DayWithinYear t in
  let L := InLeapYear t in
  match MonthFromTime t with
  | 0 => d + 1
  | 1 => d - 30
  | 2 => d - 58 - L
  | 3 => d - 89 - L
  | 4 => d - 119 - L
  | 5 => d - 150 - L
  | 6 => d - 180 - L
  | 7 => d - 211 - L
  | 8 => d - 242 - L
  | 9 => d - 272 - L
  | 10 => d - 303 - L
  | _ => d - 333 - L
  end.

Definition HourFromTime (t : Z) : Z := (t / 3600000) mod 24.
Definition MinFromTime (t : Z) : Z := (t / 60000) mod 60.
Definition SecFromTime (t : Z) : Z := (t / 1000) mod 60.
Definition msFromTime (t : Z) : Z := t mod 1000.

(** The last decimal digit of [n], and the last two, three, four and six
    digits of [n], as code units. *)
Definition digit (n : Z) : N := (48 + Z.to_N (n mod 10))%N.
Definition digits2 (n : Z) : str := [digit (n / 10); digit n].
Definition digits3 (n : Z) : str := digit (n / 100) :: digits2 n.
Definition digits4 (n : Z) : str := digit (n / 1000) :: digits3 n.
Definition digits6 (n : Z) : str :=
  digit (n / 100000) :: digit (n / 10000) :: digits4 n.

(** Four digits for the years 0 to 9999, a sign and six digits for the
    others. *)
Definition year_digits (y : Z) : str :=
  if (0 <=? y) && (y <=? 9999) then digits4 y
  else (if y <? 0 then 45%N else 43%N) :: digits6 (Z.abs y).

(** [Date.prototype.toISOString] on a date with time value [t]:
    [YYYY-MM-DDTHH:mm:ss.sssZ]. *)
Definition toISOString (t : Z) : str :=
  year_digits (YearFromTime t) ++ 45%N :: digits2 (MonthFromTime t + 1)
  ++ 45%N :: digits2 (DateFromTime t)
  ++ 84%N :: digits2 (HourFromTime t)
  ++ 58%N :: digits2 (MinFromTime t)
  ++ 58%N :: digits2 (SecFromTime t)
  ++ 46%N :: digits3 (msFromTime t) ++ [90%N].

End time_values.

(** [sock1] has announced the userId [alice], [sock2] has announced
    nothing. *)
Definition alice_announced : State :=
  exec (handle sock1 (NewUser (js "alice"))) two_connected.

(** * Properties *)

(** ** Reasoning about handler computations *)

Lemma falsy_false (s : str) : falsy s = false ↔ s ≠ [].
Proof. destruct s; simpl; split; congruence. Qed.

Lemma exec_bind {A} (c : M A) (k : A → M unit) st :
  exec (c ≫= k) st = exec (k (c st).1.1) (c st).1.2.
Proof.
  unfold exec, mbind, M_bind.
  destruct (c st) as [[a st1] o1]; simpl.
  by destruct (k a st1) as [[[] st2] o2].
Qed.

Lemma output_bind {A} (c : M A) (k : A → M unit) st :
  output (c ≫= k) st = (c st).2 ++ output (k (c st).1.1) (c st).1.2.
Proof.
  unfold output, mbind, M_bind.
  destruct (c st) as [[a st1] o1]; simpl.
  by destruct (k a st1) as [[[] st2] o2].
Qed.

Lemma exec_seq (c1 c2 : M unit) st :
  exec (c1;; c2) st = exec c2 (exec c1 st).
Proof. apply exec_bind. Qed.

Lemma output_seq (c1 c2 : M unit) st :
  output (c1;; c2) st = output c1 st ++ output c2 (exec c1 st).
Proof. apply output_bind. Qed.

Lemma run_nil st : exec (run []) st = st.
Proof. done. Qed.

Lemma run_cons sid ev evs st :
  exec (run ((sid, ev) :: evs)) st = exec (run evs) (exec (handle sid ev) st).
Proof. unfold run; simpl. by rewrite exec_seq. Qed.

(** Unfolds the monad's plumbing and computes. *)
Ltac run_m :=
  cbv beta iota zeta delta
    [exec output mbind M_bind mret M_ret get put emit skip set_onlineUsers
     set_roomHost set_rooms set_sockets socket_join socket_leave fst snd];
  simpl.

Lemma state_eta st :
  {| onlineUsers := onlineUsers st; roomHost := roomHost st;
     sockets := sockets st; rooms := rooms st |} = st.
Proof. by destruct st. Qed.

(** ** The date string *)

Section time_value_facts.
Local Open Scope Z_scope.

Example toISOString_values :
  toISOString 0 = js "1970-01-01T00:00:00.000Z"
  ∧ toISOString (-1) = js "1969-12-31T23:59:59.999Z"
  ∧ toISOString 951782400123 = js "2000-02-29T00:00:00.123Z"
  ∧ toISOString 1700000000000 = js "2023-11-14T22:13:20.000Z"
  ∧ toISOString 1709251199999 = js "2024-02-29T23:59:59.999Z"
  ∧ toISOString 4107542400000 = js "2100-03-01T00:00:00.000Z"
  ∧ toISOString 253402300799999 = js "9999-12-31T23:59:59.999Z"
  ∧ toISOString 253402300800000 = js "+010000-01-01T00:00:00.000Z"
  ∧ toISOString (-62167219200001) = js "-000001-12-31T23:59:59.999Z".
Proof. split_and!; by vm_compute. Qed.

Lemma str_ltb_irrefl (s : str) : str_ltb s s = false.
Proof.
  induction s as [|a s IH]; [done|]. simpl.
  by rewrite N.ltb_irrefl, N.eqb_refl, IH.
Qed.

Lemma str_ltb_asym (s t : str) : str_ltb s t = true → str_ltb t s = false.
Proof.
  revert t. induction s as [|a s IH]; intros [|b t]; simpl; try done.
  destruct (N.ltb_spec a b) as [Hab|Hab]; simpl.
  - intros _. destruct (N.ltb_spec b a); [lia|].
    destruct (N.eqb_spec b a); [lia|done].
  - destruct (N.eqb_spec a b) as [->|Hne]; [|done]. simpl.
    intros Hst. by rewrite N.ltb_irrefl, N.eqb_refl, (IH t Hst).
Qed.

Lemma str_ltb_cons_same (a : N) (x y : str) :
  str_ltb (a :: x) (a :: y) = str_ltb x y.
Proof. simpl. by rewrite N.ltb_irrefl, N.eqb_refl. Qed.

Lemma str_ltb_prefix (u x y : str) : str_ltb (u ++ x) (u ++ y) = str_ltb x y.
Proof.
  induction u as [|a u IH]; [done|].
  by rewrite <- !app_comm_cons, str_ltb_cons_same.
Qed.

Lemma str_ltb_cons_lt (a b : N) (x y : str) :
  (a < b)%N → str_ltb (a :: x) (b :: y) = true.
Proof. intros H. simpl. by rewrite (proj2 (N.ltb_lt a b)). Qed.

Lemma digit_lt (a b : Z) : a mod 10 < b mod 10 → (digit a < digit b)%N.
Proof. unfold digit. intros H. Z.div_mod_to_equations. lia. Qed.

Lemma digit_eq (a b : Z) : a mod 10 = b mod 10 → digit a = digit b.
Proof. unfold digit. by intros ->. Qed.

Lemma digits2_lt (a b : Z) (x y : str) :
  0 <= a → a < b → a / 100 = b / 100 →
  str_ltb (digits2 a ++ x) (digits2 b ++ y) = true.
Proof.
  intros H0 Hlt Hq. unfold digits2. cbn [app].
  destruct (Z.lt_ge_cases ((a / 10) mod 10) ((b / 10) mod 10)) as [H|H].
  - by apply str_ltb_cons_lt, digit_lt.
  - rewrite (digit_eq (a / 10) (b / 10))
      by (Z.div_mod_to_equations; lia).
    rewrite str_ltb_cons_same. apply str_ltb_cons_lt, digit_lt.
    Z.div_mod_to_equations. lia.
Qed.

Lemma digits3_lt (a b : Z) (x y : str) :
  0 <= a → a < b → a / 1000 = b / 1000 →
  str_ltb (digits3 a ++ x) (digits3 b ++ y) = true.
Proof.
  intros H0 Hlt Hq. unfold digits3. rewrite <- !app_comm_cons.
  destruct (Z.lt_ge_cases ((a / 100) mod 10) ((b / 100) mod 10)) as [H|H].
  - by apply str_ltb_cons_lt, digit_lt.
  - rewrite (digit_eq (a / 100) (b / 100))
      by (Z.div_mod_to_equations; lia).
    rewrite str_ltb_cons_same. apply digits2_lt; [done..|].
    Z.div_mod_to_equations. lia.
Qed.

Lemma digits4_lt (a b : Z) (x y : str) :
  0 <= a → a < b → a / 10000 = b / 10000 →
  str_ltb (digits4 a ++ x) (digits4 b ++ y) = true.
Proof.
  intros H0 Hlt Hq. unfold digits4. rewrite <- !app_comm_cons.
  destruct (Z.lt_ge_cases ((a / 1000) mod 10) ((b / 1000) mod 10)) as [H|H].
  - by apply str_ltb_cons_lt, digit_lt.
  - rewrite (digit_eq (a / 1000) (b / 1000))
      by (Z.div_mod_to_equations; lia).
    rewrite str_ltb_cons_same. apply digits3_lt; [done..|].
    Z.div_mod_to_equations. lia.
Qed.

Lemma DayFromYear_succ (y : Z) :
  DayFromYear (y + 1) = DayFromYear y + DaysInYear y.
Proof.
  unfold DayFromYear, DaysInYear.
  destruct (Z.eqb_spec (y mod 4) 0), (Z.eqb_spec (y mod 100) 0),
    (Z.eqb_spec (y mod 400) 0); simpl; Z.div_mod_to_equations; lia.
Qed.

Lemma DayFromYear_mono (y1 y2 : Z) :
  y1 <= y2 → DayFromYear y1 <= DayFromYear y2.
Proof. unfold DayFromYear. intros H. Z.div_mod_to_equations. lia. Qed.

(** [YearFromTime] is the year ECMAScript defines: the largest [y] whose
    first day is not after the day of [t]. *)
Lemma YearFromTime_spec (t : Z) :
  DayFromYear (YearFromTime t) <= Day t < DayFromYear (YearFromTime t + 1).
Proof.
  unfold YearFromTime. cbv zeta. generalize (Day t). intros d.
  destruct (Z.ltb_spec d (DayFromYear (1970 + d * 400 / 146097))) as [H1|H1].
  - unfold DayFromYear in *. Z.div_mod_to_equations. lia.
  - destruct (Z.leb_spec (DayFromYear (1970 + d * 400 / 146097 + 1)) d)
      as [H2|H2]; [|lia].
    unfold DayFromYear in *. Z.div_mod_to_equations. lia.
Qed.

Lemma YearFromTime_largest (t y : Z) :
  DayFromYear y <= Day t → y <= YearFromTime t.
Proof.
  intros Hy. destruct (YearFromTime_spec t) as [_ Hlt].
  destruct (Z.le_gt_cases y (YearFromTime t)) as [?|Hgt]; [done|].
  assert (DayFromYear (YearFromTime t + 1) <= DayFromYear y)
    by (apply DayFromYear_mono; lia).
  lia.
Qed.

Lemma YearFromTime_mono (t1 t2 : Z) :
  Day t1 <= Day t2 → YearFromTime t1 <= YearFromTime t2.
Proof.
  intros H. apply YearFromTime_largest.
  destruct (YearFromTime_spec t1). lia.
Qed.

Lemma DayWithinYear_range (t : Z) :
  0 <= DayWithinYear t < 365 + InLeapYear t.
Proof.
  unfold DayWithinYear, InLeapYear.
  destruct (YearFromTime_spec t) as [H1 H2].
  rewrite DayFromYear_succ in H2. revert H2. unfold DaysInYear.
  destruct (negb (YearFromTime t mod 4 =? 0)),
    (negb (YearFromTime t mod 100 =? 0)),
    (negb (YearFromTime t mod 400 =? 0)); simpl; lia.
Qed.

Lemma InLeapYear_range (t : Z) : InLeapYear t = 0 ∨ InLeapYear t = 1.
Proof. unfold InLeapYear. destruct (_ =? _); auto. Qed.

Ltac split_months :=
  repeat match goal with
         | |- context [?a <? ?b] => destruct (Z.ltb_spec a b)
         end.

Lemma month_date_range (t : Z) :
  1 <= MonthFromTime t + 1 <= 12 ∧ 1 <= DateFromTime t <= 31.
Proof.
  pose proof (DayWithinYear_range t) as Hd.
  pose proof (InLeapYear_range t) as HL.
  unfold DateFromTime, MonthFromTime. cbv zeta.
  generalize dependent (DayWithinYear t). intros d Hd.
  generalize dependent (InLeapYear t). intros L Hd HL.
  split_months; cbn iota beta; lia.
Qed.

(** Within a year, a later day has a later month, or the same month and
    a later date. *)
Lemma month_date_lt (t1 t2 : Z) :
  YearFromTime t1 = YearFromTime t2 → Day t1 < Day t2 →
  MonthFromTime t1 < MonthFromTime t2
  ∨ (MonthFromTime t1 = MonthFromTime t2 ∧ DateFromTime t1 < DateFromTime t2).
Proof.
  intros Hy Hlt.
  pose proof (DayWithinYear_range t1) as Hd1.
  pose proof (DayWithinYear_range t2) as Hd2.
  pose proof (InLeapYear_range t1) as HL.
  assert (InLeapYear t2 = InLeapYear t1) as HL2
    by (unfold InLeapYear; by rewrite Hy).
  assert (DayWithinYear t1 < DayWithinYear t2) as Hdd
    by (unfold DayWithinYear; rewrite Hy; lia).
  unfold DateFromTime, MonthFromTime. cbv zeta. rewrite HL2 in *.
  generalize dependent (DayWithinYear t1). intros d1 Hd1.
  generalize dependent (DayWithinYear t2). intros d2 Hd2 Hdd.
  generalize dependent (InLeapYear t1). intros L _ Hd1 Hd2 HL.
  split_months; cbn iota beta; lia.
Qed.

Lemma same_day_fields (t1 t2 : Z) :
  Day t1 = Day t2 →
  YearFromTime t1 = YearFromTime t2
  ∧ MonthFromTime t1 = MonthFromTime t2
  ∧ DateFromTime t1 = DateFromTime t2.
Proof.
  intros H.
  assert (YearFromTime t1 = YearFromTime t2) as Hy
    by (unfold YearFromTime; by rewrite H).
  assert (MonthFromTime t1 = MonthFromTime t2) as Hm
    by (unfold MonthFromTime, DayWithinYear, InLeapYear; by rewrite H, Hy).
  split_and!; [done..|].
  unfold DateFromTime, DayWithinYear, InLeapYear. by rewrite H, Hy, Hm.
Qed.

Lemma time_fields_lt (t1 t2 : Z) :
  Day t1 = Day t2 → t1 < t2 →
  HourFromTime t1 < HourFromTime t2
  ∨ (HourFromTime t1 = HourFromTime t2
     ∧ (MinFromTime t1 < MinFromTime t2
        ∨ (MinFromTime t1 = MinFromTime t2
           ∧ (SecFromTime t1 < SecFromTime t2
              ∨ (SecFromTime t1 = SecFromTime t2
                 ∧ msFromTime t1 < msFromTime t2))))).
Proof.
  unfold Day, msPerDay, HourFromTime, MinFromTime, SecFromTime, msFromTime.
  intros Hd Hlt. Z.div_mod_to_equations. lia.
Qed.

Lemma time_fields_range (t : Z) :
  0 <= HourFromTime t < 24 ∧ 0 <= MinFromTime t < 60
  ∧ 0 <= SecFromTime t < 60 ∧ 0 <= msFromTime t < 1000.
Proof.
  unfold HourFromTime, MinFromTime, SecFromTime, msFromTime.
  Z.div_mod_to_equations. lia.
Qed.

Lemma small_div (a b k : Z) : 0 <= a < k → 0 <= b < k → a / k = b / k.
Proof. intros Ha Hb. by rewrite !Z.div_small. Qed.

(** A later time within the years 0000 to 9999 has a later string. *)
Lemma toISOString_lt (t1 t2 : Z) :
  0 <= YearFromTime t1 → YearFromTime t2 <= 9999 → t1 < t2 →
  str_ltb (toISOString t1) (toISOString t2) = true.
Proof.
  intros Hy1 Hy2 Hlt.
  assert (Day t1 <= Day t2) as Hday
    by (unfold Day, msPerDay; Z.div_mod_to_equations; lia).
  pose proof (YearFromTime_mono t1 t2 Hday) as Hy.
  pose proof (month_date_range t1) as [Hm1 Hdt1].
  pose proof (month_date_range t2) as [Hm2 Hdt2].
  pose proof (time_fields_range t1) as (Hh1 & Hmi1 & Hs1 & Hms1).
  pose proof (time_fields_range t2) as (Hh2 & Hmi2 & Hs2 & Hms2).
  unfold toISOString, year_digits.
  rewrite !(proj2 (andb_true_iff _ _))
    by (split; [apply Z.leb_le|apply Z.leb_le]; lia).
  assert (YearFromTime t1 < YearFromTime t2 ∨
          YearFromTime t1 = YearFromTime t2) as [Hyl|Hye] by lia.
  { apply digits4_lt; [done..|]. apply small_div; lia. }
  rewrite Hye, str_ltb_prefix, str_ltb_cons_same.
  assert (Day t1 < Day t2 ∨ Day t1 = Day t2) as [Hdl|Hde] by lia.
  { destruct (month_date_lt t1 t2 Hye Hdl) as [Hml|[Hme Hdtl]].
    - apply digits2_lt; [lia..|]. apply small_div; lia.
    - rewrite Hme, str_ltb_prefix, str_ltb_cons_same.
      apply digits2_lt; [lia..|]. apply small_div; lia. }
  destruct (same_day_fields t1 t2 Hde) as (_ & -> & ->).
  rewrite str_ltb_prefix, str_ltb_cons_same,
    str_ltb_prefix, str_ltb_cons_same.
  destruct (time_fields_lt t1 t2 Hde Hlt)
    as [H|[-> [H|[-> [H|[-> H]]]]]];
    repeat (rewrite str_ltb_prefix, str_ltb_cons_same).
  - apply digits2_lt; [lia..|]. apply small_div; lia.
  - apply digits2_lt; [lia..|]. apply small_div; lia.
  - apply digits2_lt; [lia..|]. apply small_div; lia.
  - apply digits3_lt; [lia..|]. apply small_div; lia.
Qed.

(** Between times of the years 0000 to 9999 the order of the strings is
    the order of the times. *)
Lemma toISOString_sortable (t1 t2 : Z) :
  0 <= YearFromTime t1 <= 9999 → 0 <= YearFromTime t2 <= 9999 →
  (t1 < t2 ↔ str_ltb (toISOString t1) (toISOString t2) = true)
  ∧ length (toISOString t1) = 24%nat.
Proof.
  intros H1 H2. split; [split|].
  - intros Hlt. apply toISOString_lt; lia.
  - intros Hs. destruct (Z.lt_trichotomy t1 t2) as [?|[->|Hgt]]; [done|..].
    + by rewrite str_ltb_irrefl in Hs.
    + apply str_ltb_asym in Hs.
      rewrite toISOString_lt in Hs; [done|lia..].
  - unfold toISOString, year_digits.
    rewrite (proj2 (andb_true_iff _ _))
      by (split; [apply Z.leb_le|apply Z.leb_le]; lia).
    done.
Qed.
End time_value_facts.

(** ** Chat relay *)

(** [find] gives the first element that satisfies the test, and nothing
    when no element does. *)
Lemma find_first {A} (P : A → Prop) `{∀ x, Decision (P x)}
  (before : list A) (x : A) (after : list A) :
  P x → (∀ y, y ∈ before → ¬ P y) →
  find P (before ++ x :: after) = Some x.
Proof.
  intros Hx Hbefore. unfold find. induction before as [|y before IH].
  - simpl. by rewrite decide_True.
  - simpl. rewrite decide_False by (apply Hbefore; by left).
    rewrite <- option_fmap_compose.
    rewrite <- IH by (intros z Hz; apply Hbefore; by right).
    by destruct (list_find P (before ++ x :: after)) as [[??]|].
Qed.

Lemma find_nothing {A} (P : A → Prop) `{∀ x, Decision (P x)} (l : list A) :
  (∀ y, y ∈ l → ¬ P y) → find P l = None.
Proof.
  intros Hl. unfold find.
  by rewrite (proj2 (list_find_None P l)) by by apply Forall_forall.
Qed.

Section chat.
Variables (sid now : str) (clock : Z) (st : State).

(** C7.  A chat-send event whose message is absent, or trims to the empty
    string, is dropped: nothing is emitted and the state is unchanged. *)
Theorem chat_blank_dropped (payload : option ChatMessagePayload) :
  trimmedMessage payload = None ∨ trimmedMessage payload = Some [] →
  on_chat_message sid payload now st = ((), st, []).
Proof.
  unfold on_chat_message. intros H.
  destruct payload as [p|]; [|done].
  by destruct H as [-> | ->].
Qed.

(** C6.  A chat-send event whose message [msg] does not trim to the empty
    string, handled when the clock of the relay reads [clock], makes the
    relay emit exactly one event, a chat-message sent with [io.emit],
    which reaches every connected socket (the sender too when it is
    connected); the state is unchanged.  The message carries [trim msg].
    Its userId is the payload's when that is present and non-empty; else
    the userId of the first entry of [onlineUsers] with the sender's
    socket id, when there is such an entry and its userId is non-empty;
    else the sender's socket id.  Its timestamp is the payload's when
    supplied; else it is the date string of [clock], and for clock
    readings in the years 0000 to 9999 it has 24 characters and sorts as
    the readings do: it is before the date string of another reading
    exactly when [clock] is before that reading. *)
Theorem chat_relayed (payload : ChatMessagePayload) (msg : str) :
  payload_message payload = Some msg → trim msg ≠ [] →
  ∃ out,
    on_chat_message sid (Some payload) (toISOString clock) st =
      ((), st, [{| sent_at := st; sent_target := io_emit;
                   sent_event := chat_message out |}])
    ∧ recipients st io_emit = sockets st
    ∧ (sid ∈ sockets st → sid ∈ recipients st io_emit)
    ∧ out_message out = trim msg
    ∧ (∀ u, payload_userId payload = Some u → u ≠ [] → out_userId out = u)
    ∧ (payload_userId payload = None ∨ payload_userId payload = Some [] →
         (∀ before user after,
            onlineUsers st = before ++ user :: after →
            socketId user = sid →
            (∀ other, other ∈ before → socketId other ≠ sid) →
            (userId user ≠ [] → out_userId out = userId user)
            ∧ (userId user = [] → out_userId out = sid))
         ∧ ((∀ user, user ∈ onlineUsers st → socketId user ≠ sid) →
            out_userId out = sid))
    ∧ (∀ t, payload_timestamp payload = Some t → out_timestamp out = t)
    ∧ (payload_timestamp payload = None →
         out_timestamp out = toISOString clock
         ∧ ∀ clock',
             (0 <= YearFromTime clock <= 9999)%Z →
             (0 <= YearFromTime clock' <= 9999)%Z →
             length (out_timestamp out) = 24%nat
             ∧ ((clock < clock')%Z ↔
                str_ltb (out_timestamp out) (toISOString clock') = true)).
Proof.
  intros Hm Hne. unfold on_chat_message, trimmedMessage. simpl.
  rewrite Hm. simpl.
  apply falsy_false in Hne. rewrite Hne.
  eexists. split; [reflexivity|]. simpl.
  split; [done|]. split; [done|]. split; [done|].
  split; [|split; [|split]].
  - intros u -> Hu. simpl. by apply falsy_false in Hu as ->.
  - intros Hp.
    assert (∀ b, or_else (payload_userId payload) b = b) as Hpay
      by (intros b; by destruct Hp as [-> | ->]).
    rewrite Hpay. unfold sender_of. split.
    + intros before user after Hl Hsid Hbefore. rewrite Hl.
      rewrite (find_first _ before user after Hsid Hbefore). simpl.
      split.
      * intros Hu. apply falsy_false in Hu. by rewrite Hu.
      * by intros ->.
    + intros Hnone. by rewrite (find_nothing _ _ Hnone).
  - by intros t ->.
  - intros ->. simpl. split; [done|]. intros clock' Hy Hy'.
    destruct (toISOString_sortable clock clock' Hy Hy') as [Hiff Hlen].
    by split.
Qed.
End chat.

(** ** Point-to-point signaling *)



(** ** Room authority *)

Lemma on_rtc_join_roomHost sid room st :
  room ≠ [] →
  roomHost (exec (on_rtc_join sid room) st) =
    match roomHost st !! room with
    | Some _ => roomHost st
    | None => <[room := sid]> (roomHost st)
    end.
Proof.
  intros Hr. unfold on_rtc_join. apply falsy_false in Hr as ->.
  run_m. destruct (roomHost st !! room) as [h|] eqn:E.
  - rewrite bool_decide_eq_true_2 by (by eexists). by run_m.
  - rewrite bool_decide_eq_false_2 by (by intros [? ?]). by run_m.
Qed.

(** A join claims the host slot only when the room has none. *)
Lemma on_rtc_join_host sid room st :
  room ≠ [] →
  roomHost (exec (on_rtc_join sid room) st) !! room =
    Some (default sid (roomHost st !! room)).
Proof.
  intros Hr. rewrite on_rtc_join_roomHost by done.
  destruct (roomHost st !! room) as [h|] eqn:E; simpl; [done|].
  by rewrite lookup_insert_eq.
Qed.

(** C4.  After any sequence of joins of a (non-empty) room, the recorded
    host is the one recorded before the sequence if there was one, and
    otherwise the first connection of the sequence: the first joiner of a
    room without host becomes its host and no later join changes it. *)
Theorem first_joiner_is_host (room : str) (cs : list str) st :
  room ≠ [] →
  roomHost (exec (run (joins room cs)) st) !! room =
    match roomHost st !! room with
    | Some h => Some h
    | None => head cs
    end.
Proof.
  intros Hr. revert st. induction cs as [|c cs IH]; intros st.
  - rewrite run_nil. simpl. by destruct (roomHost st !! room).
  - unfold joins. rewrite fmap_cons, run_cons. fold (joins room cs).
    rewrite IH. simpl. rewrite on_rtc_join_host by done.
    by destruct (roomHost st !! room).
Qed.

(** ** Connection lifecycle *)

Lemma handle_connection sid st :
  handle sid Connection st =
    let users := onlineUsers st ++ [{| socketId := sid; userId := [] |}] in
    let st' := {| onlineUsers := users; roomHost := roomHost st;
                  sockets := {[sid]} ∪ sockets st;
                  rooms := <[sid := {[sid]} ∪ members st sid]> (rooms st) |} in
    ((), st', [{| sent_at := st'; sent_target := io_emit;
                  sent_event := usersOnline users |}]).
Proof. done. Qed.

Section release.
Variable sid : str.

Lemma release_slot_eq room hostId st :
  release_slot sid (room, hostId) st =
    ((), {| onlineUsers := onlineUsers st;
            roomHost := if decide (hostId = sid)
                        then delete room (roomHost st) else roomHost st;
            sockets := sockets st; rooms := rooms st |}, []).
Proof.
  unfold release_slot. destruct (decide (hostId = sid)); run_m; [done|].
  by rewrite state_eta.
Qed.

(** The clean-up loop of the disconnect handler over the entries [l]. *)
Lemma release_loop (l : list (str * str)) st :
  let st' := exec (for_each l (release_slot sid)) st in
  output (for_each l (release_slot sid)) st = []
  ∧ onlineUsers st' = onlineUsers st
  ∧ sockets st' = sockets st
  ∧ rooms st' = rooms st
  ∧ ∀ r, roomHost st' !! r =
         if decide ((r, sid) ∈ l) then None else roomHost st !! r.
Proof.
  revert st. induction l as [|[room hostId] l IH]; intros st.
  - by split_and!.
  - cbn [for_each]. cbv zeta. rewrite output_seq, exec_seq.
    destruct (IH (exec (release_slot sid (room, hostId)) st))
      as (Ho & Hu & Hs & Hr & Hh).
    rewrite Ho, Hu, Hs, Hr.
    assert (output (release_slot sid (room, hostId)) st = []) as ->
      by (unfold output; by rewrite release_slot_eq).
    split_and!; try done; try (unfold exec; by rewrite release_slot_eq).
    intros r. rewrite Hh. unfold exec. rewrite release_slot_eq. simpl.
    destruct (decide ((r, sid) ∈ l)) as [Hin|Hin].
    { rewrite decide_True; [done | by apply list_elem_of_further]. }
    destruct (decide (hostId = sid)) as [->|Hne].
    + destruct (decide (r = room)) as [->|Hrr].
      * rewrite lookup_delete_eq, decide_True; [done | by left].
      * rewrite lookup_delete_ne, decide_False; [done | | done].
        intros [?|?]%elem_of_cons; [congruence|done].
    + rewrite decide_False; [done|].
      intros [?|?]%elem_of_cons; [congruence|done].
Qed.

(** The disconnect handler, in one piece: the entries of the socket are
    filtered out, the new array is broadcast in the state reached so
    far, then every host slot held by the socket is deleted. *)
Lemma on_disconnect_spec st :
  let users := filter (λ user, socketId user ≠ sid) (onlineUsers st) in
  let st1 := {| onlineUsers := users; roomHost := roomHost st;
                sockets := sockets st; rooms := rooms st |} in
  let st2 := exec (on_disconnect sid) st in
  output (on_disconnect sid) st =
    [{| sent_at := st1; sent_target := io_emit;
        sent_event := usersOnline users |}]
  ∧ onlineUsers st2 = users
  ∧ sockets st2 = sockets st
  ∧ rooms st2 = rooms st
  ∧ ∀ r, roomHost st2 !! r =
         if decide (roomHost st !! r = Some sid) then None
         else roomHost st !! r.
Proof.
  intros users st1 st2.
  assert (output (on_disconnect sid) st =
            [{| sent_at := st1; sent_target := io_emit;
                sent_event := usersOnline users |}]
            ++ output (for_each (map_to_list (roomHost st))
                        (release_slot sid)) st1) as Ho.
  { unfold on_disconnect. rewrite !output_bind. f_equal. }
  assert (st2 = exec (for_each (map_to_list (roomHost st))
                        (release_slot sid)) st1) as Hst.
  { unfold st2, on_disconnect. by rewrite !exec_bind. }
  destruct (release_loop (map_to_list (roomHost st)) st1)
    as (Hlo & Hu & Hs & Hr & Hh).
  rewrite Ho, Hlo, Hst, Hu, Hs, Hr. split_and!; try done.
  intros r. rewrite Hh. simpl.
  destruct (decide (roomHost st !! r = Some sid)) as [Hy|Hn].
  - by rewrite decide_True by by apply elem_of_map_to_list.
  - by rewrite decide_False by by rewrite elem_of_map_to_list.
Qed.
End release.

(** ** The rooms of the adapter *)

Lemma adapter_del_lookup_ne (sid room r : str) (m : gmap str (gset str)) :
  r ≠ room → adapter_del sid room m !! r = m !! r.
Proof.
  intros Hne. unfold adapter_del.
  destruct (m !! room) as [s|]; [|done].
  destruct (decide (s ∖ {[sid]} = ∅)).
  - by rewrite lookup_delete_ne.
  - by rewrite lookup_insert_ne.
Qed.

Lemma adapter_del_members (sid room : str) (m : gmap str (gset str)) :
  default ∅ (adapter_del sid room m !! room) =
    default ∅ (m !! room) ∖ {[sid]}.
Proof.
  unfold adapter_del.
  destruct (m !! room) as [s|] eqn:E; simpl.
  - destruct (decide (s ∖ {[sid]} = ∅)) as [He|He].
    + by rewrite lookup_delete_eq, He.
    + by rewrite lookup_insert_eq.
  - rewrite E. simpl. set_solver.
Qed.

Lemma adapter_del_sub (sid room r : str) (s : gset str)
  (m : gmap str (gset str)) :
  adapter_del sid room m !! r = Some s →
  ∃ s0, m !! r = Some s0 ∧ s ⊆ s0.
Proof.
  destruct (decide (r = room)) as [->|Hne].
  - unfold adapter_del. destruct (m !! room) as [s0|] eqn:E.
    + destruct (decide (s0 ∖ {[sid]} = ∅)).
      * by rewrite lookup_delete_eq.
      * rewrite lookup_insert_eq. intros [= <-]. exists s0. set_solver.
    + by rewrite E.
  - rewrite adapter_del_lookup_ne by done. intros ->. by exists s.
Qed.

Lemma leave_client_eq room cid st :
  leave_client room cid st =
    ((), {| onlineUsers := onlineUsers st; roomHost := roomHost st;
            sockets := sockets st;
            rooms := if decide (cid ∈ sockets st)
                     then adapter_del cid room (rooms st) else rooms st |},
     []).
Proof.
  unfold leave_client. run_m. destruct (decide (cid ∈ sockets st)); run_m.
  - done.
  - by rewrite state_eta.
Qed.

(** The loop of the meeting-end handler over the client ids [l]: every
    listed id that is a registered socket leaves the room. *)
Lemma leave_loop room (l : list str) st :
  let st' := exec (for_each l (leave_client room)) st in
  output (for_each l (leave_client room)) st = []
  ∧ onlineUsers st' = onlineUsers st
  ∧ roomHost st' = roomHost st
  ∧ sockets st' = sockets st
  ∧ (∀ r, r ≠ room → rooms st' !! r = rooms st !! r)
  ∧ (∀ c, c ∈ members st' room ↔
          c ∈ members st room ∧ ¬ (c ∈ l ∧ c ∈ sockets st))
  ∧ (∀ r s, rooms st' !! r = Some s → ∃ s0, rooms st !! r = Some s0 ∧ s ⊆ s0).
Proof.
  revert st. induction l as [|cid l IH]; intros st.
  - split_and!; try done.
    + intros c. rewrite elem_of_nil. tauto.
    + intros r s Hrs. by exists s.
  - cbn [for_each]. cbv zeta. rewrite output_seq, exec_seq.
    destruct (IH (exec (leave_client room cid) st))
      as (Ho & Hu & Hh & Hs & Hr & Hm & Hsub).
    assert (output (leave_client room cid) st = []) as ->
      by (unfold output; by rewrite leave_client_eq).
    rewrite Ho, Hu, Hh, Hs.
    split_and!; try done; try (unfold exec; by rewrite leave_client_eq).
    + intros r Hne. rewrite Hr by done. unfold exec.
      rewrite leave_client_eq. simpl.
      destruct (decide (cid ∈ sockets st)); [|done].
      by apply adapter_del_lookup_ne.
    + intros c. rewrite Hm. unfold exec, members.
      rewrite leave_client_eq. simpl. rewrite elem_of_cons.
      destruct (decide (cid ∈ sockets st)) as [Hc|Hc].
      * rewrite adapter_del_members. rewrite elem_of_difference.
        rewrite elem_of_singleton.
        destruct (decide (c = cid)) as [->|Hne]; naive_solver.
      * destruct (decide (c = cid)) as [->|Hne]; naive_solver.
    + intros r s Hrs. destruct (Hsub r s Hrs) as (s' & H1 & Hs').
      revert H1. unfold exec. rewrite leave_client_eq. simpl.
      destruct (decide (cid ∈ sockets st)).
      * intros (s0 & H0 & Hs0)%adapter_del_sub. exists s0. set_solver.
      * intros H1. exists s'. set_solver.
Qed.

(** ** Handlers as state transformers *)

Lemma on_newUser_eq sid u st :
  u ≠ [] →
  on_newUser sid u st =
    let st' := {| onlineUsers := announced sid u (onlineUsers st);
                  roomHost := roomHost st; sockets := sockets st;
                  rooms := rooms st |} in
    ((), st', [{| sent_at := st'; sent_target := io_emit;
                  sent_event := usersOnline (onlineUsers st') |}]).
Proof.
  intros Hu. unfold on_newUser. by apply falsy_false in Hu as ->.
Qed.

Lemma on_chat_message_state sid payload now st :
  exec (on_chat_message sid payload now) st = st.
Proof.
  unfold on_chat_message.
  destruct payload as [p|]; [|done].
  destruct (trimmedMessage (Some p)) as [m|]; [|done].
  by destruct (falsy m).
Qed.

Lemma on_rtc_join_eq sid room st :
  room ≠ [] →
  on_rtc_join sid room st =
    let st' := {| onlineUsers := onlineUsers st;
                  roomHost := match roomHost st !! room with
                              | Some _ => roomHost st
                              | None => <[room := sid]> (roomHost st)
                              end;
                  sockets := sockets st;
                  rooms := <[room := {[sid]} ∪ members st room]> (rooms st) |}
    in ((), st', [{| sent_at := st'; sent_target := socket_to sid room;
                     sent_event := rtc_joined sid |}]).
Proof.
  intros Hr. unfold on_rtc_join. apply falsy_false in Hr as ->.
  run_m. destruct (roomHost st !! room) as [h|] eqn:E.
  - rewrite bool_decide_eq_true_2 by (by eexists). by run_m.
  - rewrite bool_decide_eq_false_2 by (by intros [? ?]). by run_m.
Qed.

Lemma on_rtc_leave_eq sid room st :
  room ≠ [] →
  on_rtc_leave sid room st =
    let st' := {| onlineUsers := onlineUsers st; roomHost := roomHost st;
                  sockets := sockets st;
                  rooms := adapter_del sid room (rooms st) |} in
    ((), st', [{| sent_at := st'; sent_target := socket_to sid room;
                  sent_event := rtc_left sid |}]).
Proof. intros Hr. unfold on_rtc_leave. by apply falsy_false in Hr as ->. Qed.

Lemma signal_state sid room to v st :
  exec (on_rtc_offer sid room to v) st = st
  ∧ exec (on_rtc_answer sid room to v) st = st
  ∧ exec (on_rtc_ice sid room to v) st = st.
Proof.
  unfold on_rtc_offer, on_rtc_answer, on_rtc_ice.
  by destruct (falsy room || falsy to || negb (truthy v)).
Qed.

(** The requester is not the recorded host: a denial, and nothing else. *)
Lemma on_meeting_end_denied sid room st :
  room ≠ [] → roomHost st !! room ≠ Some sid →
  on_meeting_end sid room st =
    ((), st, [{| sent_at := st; sent_target := socket_emit sid;
                 sent_event := meeting_end_denied |}]).
Proof.
  intros Hr Hh. unfold on_meeting_end. apply falsy_false in Hr as ->.
  run_m. destruct (roomHost st !! room) as [h|] eqn:E; [|done].
  destruct (falsy h); [done|]. simpl.
  rewrite bool_decide_eq_false_2; [done | congruence].
Qed.

(** The requester is the recorded host: the notification goes out in the
    state the handler started in, then the host slot is deleted, then the
    loop runs. *)
Lemma on_meeting_end_host sid room st :
  room ≠ [] → sid ≠ [] → roomHost st !! room = Some sid →
  let st1 := {| onlineUsers := onlineUsers st;
                roomHost := delete room (roomHost st);
                sockets := sockets st; rooms := rooms st |} in
  output (on_meeting_end sid room) st =
    {| sent_at := st; sent_target := io_to room;
       sent_event := meeting_ended |}
    :: output (for_each (elements (members st room)) (leave_client room)) st1
  ∧ exec (on_meeting_end sid room) st =
      exec (for_each (elements (members st room)) (leave_client room)) st1.
Proof.
  intros Hr Hs Hh. unfold on_meeting_end, members.
  apply falsy_false in Hr as ->. apply falsy_false in Hs.
  run_m. rewrite Hh, Hs. simpl. rewrite bool_decide_eq_true_2 by done.
  run_m. destruct (rooms st !! room) as [clients|] eqn:E; simpl.
  - by destruct (for_each _ _ _) as [[[] st2] o].
  - by rewrite elements_empty.
Qed.

(** ** Presence registry *)

Lemma own_entry_found (sid : str) (l : list OnlineUser) :
  sid ∈ socketId <$> l →
  ∃ i e, list_find (λ user, socketId user = sid) l = Some (i, e)
         ∧ l !! i = Some e ∧ socketId e = sid.
Proof.
  intros (e & -> & He)%list_elem_of_fmap.
  destruct (list_find_elem_of (λ user, socketId user = socketId e) l e)
    as [[i e'] Hf]; [done..|].
  exists i, e'. split; [done|].
  apply list_find_Some in Hf as (? & ? & _). done.
Qed.

(** A socket that has an entry gets its (first) entry overwritten. *)
Lemma announced_own_entry (sid u : str) (l : list OnlineUser) i e :
  list_find (λ user, socketId user = sid) l = Some (i, e) →
  announced sid u l = <[i := {| socketId := sid; userId := u |}]> l.
Proof. intros Hf. unfold announced, findIndex. by rewrite Hf. Qed.

Lemma announced_socketIds (sid u : str) (l : list OnlineUser) :
  sid ∈ socketId <$> l →
  socketId <$> announced sid u l = socketId <$> l.
Proof.
  intros (i & e & Hf & Hi & He)%own_entry_found.
  rewrite (announced_own_entry _ _ _ _ _ Hf), list_fmap_insert. simpl.
  apply list_insert_id. by rewrite list_lookup_fmap, Hi, <- He.
Qed.

Lemma announced_has (sid u : str) (l : list OnlineUser) :
  sid ∈ socketId <$> l →
  {| socketId := sid; userId := u |} ∈ announced sid u l.
Proof.
  intros (i & e & Hf & Hi & He)%own_entry_found.
  rewrite (announced_own_entry _ _ _ _ _ Hf).
  apply list_elem_of_lookup. exists i.
  apply list_lookup_insert_eq. by eapply lookup_lt_Some.
Qed.

Lemma announced_keeps (sid u : str) (l : list OnlineUser) e :
  sid ∈ socketId <$> l → e ∈ l → socketId e ≠ sid →
  e ∈ announced sid u l.
Proof.
  intros (i & e' & Hf & Hi & He')%own_entry_found He Hne.
  rewrite (announced_own_entry _ _ _ _ _ Hf).
  apply list_elem_of_lookup in He as [j Hj].
  apply list_elem_of_lookup. exists j.
  rewrite list_lookup_insert_ne; [done|]. intros ->. congruence.
Qed.

(** A socket without entry takes one of the two other branches: the
    entries that bear the userId are re-pointed to it, or, when there is
    none, an entry is appended. *)
Lemma announced_without_entry (sid u : str) (l : list OnlineUser) :
  sid ∉ socketId <$> l →
  announced sid u l =
    if some (λ user, userId user = u) l
    then (λ user, if decide (userId user = u)
                  then {| socketId := sid; userId := u |} else user) <$> l
    else l ++ [{| socketId := sid; userId := u |}].
Proof.
  intros Hsid. unfold announced, findIndex.
  assert (list_find (λ user, socketId user = sid) l = None) as ->.
  { apply list_find_None, Forall_forall. intros e He <-.
    by apply Hsid, list_elem_of_fmap_2. }
  simpl. by destruct (some _ l).
Qed.

(** ** The invariant *)

Lemma inv_initial : inv initial.
Proof.
  split; simpl; try done.
  - intros s. by rewrite elem_of_empty, elem_of_nil.
  - constructor.
  - intros r [h Hh]. by rewrite lookup_empty in Hh.
Qed.

Lemma inv_connection sid st :
  inv st → sid ≠ [] → sid ∉ sockets st →
  inv (exec (handle sid Connection) st).
Proof.
  intros [Hh Hp Hu Hi Hm Hn] Hsid Hfresh.
  unfold exec. rewrite handle_connection. split; simpl.
  - intros r h Hr. apply elem_of_union_r. eauto.
  - intros s. rewrite fmap_app, elem_of_app, elem_of_union, Hp. simpl.
    rewrite list_elem_of_singleton, elem_of_singleton. tauto.
  - rewrite fmap_app. apply NoDup_app. split_and!; [done| |].
    + intros s Hs. simpl. rewrite list_elem_of_singleton. intros ->.
      by apply Hfresh, Hp.
    + simpl. apply NoDup_singleton.
  - rewrite elem_of_union, elem_of_singleton. intros [?|?]; [congruence|done].
  - intros r s. destruct (decide (r = sid)) as [->|Hne].
    + rewrite lookup_insert_eq. intros [= <-].
      apply union_subseteq. split; [set_solver|].
      unfold members. destruct (rooms st !! sid) as [s0|] eqn:E; simpl.
      * apply Hm in E. set_solver.
      * set_solver.
    + rewrite lookup_insert_ne by done. intros E. apply Hm in E. set_solver.
  - done.
Qed.

Lemma inv_newUser sid u st :
  inv st → sid ∈ sockets st → inv (exec (handle sid (NewUser u)) st).
Proof.
  intros Hinv Hsid. simpl. destruct (decide (u = [])) as [->|Hu]; [done|].
  unfold exec. rewrite on_newUser_eq by done. simpl.
  destruct Hinv as [Hh Hp Hun Hi Hm Hn].
  assert (socketId <$> announced sid u (onlineUsers st)
          = socketId <$> onlineUsers st) as E
    by by apply announced_socketIds, Hp.
  split; simpl; rewrite ?E; done.
Qed.

Lemma inv_rtc_join sid room st :
  inv st → sid ∈ sockets st → inv (exec (handle sid (RtcJoin room)) st).
Proof.
  intros Hinv Hsid. simpl. destruct (decide (room = [])) as [->|Hr]; [done|].
  unfold exec. rewrite on_rtc_join_eq by done. simpl.
  destruct Hinv as [Hh Hp Hun Hi Hm Hn]. split; simpl; try done.
  - intros r h. destruct (roomHost st !! room) as [h0|] eqn:E; [by eauto|].
    destruct (decide (r = room)) as [->|Hne].
    + rewrite lookup_insert_eq. by intros [= <-].
    + rewrite lookup_insert_ne by done. eauto.
  - intros r s. destruct (decide (r = room)) as [->|Hne].
    + rewrite lookup_insert_eq. intros [= <-].
      apply union_subseteq. split; [set_solver|].
      unfold members. destruct (rooms st !! room) as [s0|] eqn:E; simpl.
      * by apply Hm in E.
      * set_solver.
    + rewrite lookup_insert_ne by done. eauto.
  - intros r. destruct (roomHost st !! room) as [h0|] eqn:E; [by eauto|].
    destruct (decide (r = room)) as [->|Hne]; [done|].
    rewrite lookup_insert_ne by done. eauto.
Qed.

Lemma inv_rtc_leave sid room st :
  inv st → inv (exec (on_rtc_leave sid room) st).
Proof.
  intros Hinv. destruct (decide (room = [])) as [->|Hr]; [done|].
  unfold exec. rewrite on_rtc_leave_eq by done. simpl.
  destruct Hinv as [Hh Hp Hun Hi Hm Hn]. split; simpl; try done.
  intros r s (s0 & H0 & Hs0)%adapter_del_sub. apply Hm in H0. set_solver.
Qed.

Lemma inv_meeting_end sid room st :
  inv st → sid ∈ sockets st → inv (exec (on_meeting_end sid room) st).
Proof.
  intros Hinv Hsid. destruct (decide (room = [])) as [->|Hr]; [done|].
  destruct (decide (roomHost st !! room = Some sid)) as [Hhost|Hhost].
  - assert (sid ≠ []) as Hne by (intros ->; by apply (inv_ids st)).
    destruct (on_meeting_end_host sid room st Hr Hne Hhost) as [_ ->].
    set (st1 := {| onlineUsers := onlineUsers st;
                   roomHost := delete room (roomHost st);
                   sockets := sockets st; rooms := rooms st |}).
    destruct (leave_loop room (elements (members st room)) st1)
      as (_ & Hu & Hh & Hs & _ & _ & Hsub).
    destruct Hinv as [Ih Ip Iu Ii Im In].
    split; rewrite ?Hu, ?Hh, ?Hs; simpl; try done.
    + intros r h. destruct (decide (r = room)) as [->|Hrr].
      * by rewrite lookup_delete_eq.
      * rewrite lookup_delete_ne by done. eauto.
    + intros r s (s0 & H0 & Hs0)%Hsub. simpl in H0. apply Im in H0.
      set_solver.
    + intros r. destruct (decide (r = room)) as [->|Hrr]; [done|].
      rewrite lookup_delete_ne by done. eauto.
  - unfold exec. by rewrite on_meeting_end_denied.
Qed.

Lemma handle_disconnect_exec sid st :
  exec (handle sid Disconnect) st = exec (on_disconnect sid) (dropped sid st).
Proof. simpl. by rewrite exec_seq. Qed.

Lemma handle_disconnect_output sid st :
  output (handle sid Disconnect) st =
    output (on_disconnect sid) (dropped sid st).
Proof. simpl. by rewrite output_seq. Qed.

Lemma inv_disconnect sid st :
  inv st → inv (exec (handle sid Disconnect) st).
Proof.
  intros [Hh Hp Hun Hi Hm Hn]. rewrite handle_disconnect_exec.
  destruct (on_disconnect_spec sid (dropped sid st))
    as (_ & Hu & Hs & Hr & Hhost).
  split; rewrite ?Hu, ?Hs, ?Hr; simpl.
  - intros r h. rewrite Hhost. simpl.
    destruct (decide (roomHost st !! r = Some sid)) as [E|E]; [done|].
    intros Hrh. apply elem_of_difference. split; [by eauto|].
    rewrite elem_of_singleton. congruence.
  - intros s. rewrite elem_of_difference, elem_of_singleton, Hp.
    rewrite !list_elem_of_fmap. split.
    + intros [(e & -> & He) Hne]. exists e. split; [done|].
      by apply list_elem_of_filter.
    + intros (e & -> & [Hne He]%list_elem_of_filter). eauto.
  - eapply sublist_NoDup; [exact Hun|].
    apply fmap_sublist, sublist_filter.
  - rewrite elem_of_difference. tauto.
  - intros r s (s0 & Hs0 & H0)%lookup_omap_Some. apply Hm in H0.
    simpl in Hs0. destruct (decide (s0 ∖ {[sid]} = ∅)); [done|].
    injection Hs0 as <-. set_solver.
  - intros r [h Hrh]. rewrite Hhost in Hrh. simpl in Hrh.
    destruct (decide (roomHost st !! r = Some sid)) as [E|E]; [done|].
    eauto.
Qed.

(** Every handler preserves the invariant, for the events the transport
    can deliver. *)
Lemma inv_step st sid ev :
  inv st → enabled st sid ev → inv (exec (handle sid ev) st).
Proof.
  intros Hinv Hen. destruct ev; simpl in Hen.
  - destruct Hen. by apply inv_connection.
  - by apply inv_newUser.
  - simpl. by rewrite on_chat_message_state.
  - by apply inv_rtc_join.
  - by apply inv_rtc_leave.
  - simpl. by rewrite (proj1 (signal_state _ _ _ _ _)).
  - simpl. by rewrite (proj1 (proj2 (signal_state _ _ _ _ _))).
  - simpl. by rewrite (proj2 (proj2 (signal_state _ _ _ _ _))).
  - by apply inv_meeting_end.
  - by apply inv_rtc_leave.
  - by apply inv_disconnect.
Qed.

Lemma reachable_inv st : reachable st → inv st.
Proof.
  induction 1 as [|st sid ev _ IH Hen]; [apply inv_initial|].
  by apply inv_step.
Qed.

Lemma reachable_run evs st :
  reachable st → all_enabled evs st = true → reachable (exec (run evs) st).
Proof.
  revert st. induction evs as [|[sid ev] evs IH]; intros st Hst; [done|].
  simpl. intros [Hen Hrest]%andb_prop. rewrite run_cons.
  apply IH; [|done]. apply reachable_step; [done|].
  by apply bool_decide_eq_true_1 in Hen.
Qed.

Lemma inv_hosts_connected st : inv st → hosts_connected st.
Proof.
  intros [Hh Hp _ _ _ _] r h Hrh. split; [by eauto|].
  apply Hh, Hp, list_elem_of_fmap in Hrh as (user & -> & Hu). eauto.
Qed.

(** A host slot that is filled after an event was filled before it, or
    the event is a join of that room and the slot holds the joiner. *)
Lemma host_recorded_by_own_join sid ev st (r h : str) :
  roomHost (exec (handle sid ev) st) !! r = Some h →
  roomHost st !! r = Some h ∨ (ev = RtcJoin r ∧ h = sid).
Proof.
  destruct ev as [|u|payload now|room|room|room to v|room to v|room to v
                 |room|room|].
  - unfold exec. rewrite handle_connection. auto.
  - cbn [handle]. destruct (decide (u = [])) as [->|Hu]; [by auto|].
    unfold exec. rewrite on_newUser_eq by done. auto.
  - cbn [handle]. rewrite on_chat_message_state. auto.
  - cbn [handle]. destruct (decide (room = [])) as [->|Hr]; [by auto|].
    rewrite on_rtc_join_roomHost by done.
    destruct (roomHost st !! room) as [h0|] eqn:E; [by auto|].
    destruct (decide (r = room)) as [->|Hne].
    + rewrite lookup_insert_eq. intros [= <-]. auto.
    + rewrite lookup_insert_ne by done. auto.
  - cbn [handle]. destruct (decide (room = [])) as [->|Hr]; [by auto|].
    unfold exec. rewrite on_rtc_leave_eq by done. auto.
  - cbn [handle]. rewrite (proj1 (signal_state _ _ _ _ _)). auto.
  - cbn [handle]. rewrite (proj1 (proj2 (signal_state _ _ _ _ _))). auto.
  - cbn [handle]. rewrite (proj2 (proj2 (signal_state _ _ _ _ _))). auto.
  - cbn [handle]. destruct (decide (room = [])) as [->|Hr]; [by auto|].
    destruct (decide (roomHost st !! room = Some sid)) as [Hhost|Hhost].
    + destruct (decide (sid = [])) as [->|Hne].
      * unfold on_meeting_end. apply falsy_false in Hr as ->.
        run_m. rewrite Hhost. simpl. auto.
      * destruct (on_meeting_end_host sid room st Hr Hne Hhost) as [_ ->].
        set (st1 := {| onlineUsers := onlineUsers st;
                       roomHost := delete room (roomHost st);
                       sockets := sockets st; rooms := rooms st |}).
        destruct (leave_loop room (elements (members st room)) st1)
          as (_ & _ & -> & _).
        simpl. destruct (decide (r = room)) as [->|Hrr].
        -- by rewrite lookup_delete_eq.
        -- rewrite lookup_delete_ne by done. auto.
    + unfold exec. rewrite on_meeting_end_denied by done. auto.
  - change (handle sid (MeetingLeave room)) with (on_rtc_leave sid room).
    destruct (decide (room = [])) as [->|Hr]; [by auto|].
    unfold exec. rewrite on_rtc_leave_eq by done. auto.
  - rewrite handle_disconnect_exec.
    destruct (on_disconnect_spec sid (dropped sid st))
      as (_ & _ & _ & _ & ->).
    simpl. destruct (decide (roomHost st !! r = Some sid)); [done|auto].
Qed.

(** C10.  In every reachable state every id recorded as a host is a
    connected socket with an entry in [onlineUsers], and this still holds
    after any event the transport can deliver in that state.  A host slot
    is only ever filled by a join of the room, with the id of the joiner,
    and no slot holds the id of a socket once its disconnect has been
    processed. *)
Theorem host_is_always_connected st :
  reachable st →
  hosts_connected st
  ∧ (∀ sid ev, enabled st sid ev →
       hosts_connected (exec (handle sid ev) st))
  ∧ (∀ sid ev r h,
       roomHost (exec (handle sid ev) st) !! r = Some h →
       roomHost st !! r = Some h ∨ (ev = RtcJoin r ∧ h = sid))
  ∧ (∀ c r, roomHost (exec (handle c Disconnect) st) !! r ≠ Some c).
Proof.
  intros Hst. split_and!.
  - by apply inv_hosts_connected, reachable_inv.
  - intros sid ev Hen. apply inv_hosts_connected, inv_step; [|done].
    by apply reachable_inv.
  - intros sid ev r h. apply host_recorded_by_own_join.
  - intros c r. rewrite handle_disconnect_exec.
    destruct (on_disconnect_spec c (dropped c st)) as (_ & _ & _ & _ & ->).
    simpl. by destruct (decide (roomHost st !! r = Some c)).
Qed.

(** C5.  When connection [c] disconnects, every room whose recorded host
    is [c] loses its host, whatever their number, so the next connection
    to join such a room becomes its host; the rooms with another host keep
    it. *)
Theorem disconnect_releases_every_room (c : str) st :
  reachable st →
  let st' := exec (handle c Disconnect) st in
  (∀ r, roomHost st !! r = Some c →
     roomHost st' !! r = None
     ∧ ∀ c', roomHost (exec (handle c' (RtcJoin r)) st') !! r = Some c')
  ∧ (∀ r h, roomHost st !! r = Some h → h ≠ c → roomHost st' !! r = Some h).
Proof.
  intros Hst st'.
  assert (∀ r, roomHost st' !! r =
               if decide (roomHost st !! r = Some c) then None
               else roomHost st !! r) as Hhost.
  { unfold st'. rewrite handle_disconnect_exec.
    apply (on_disconnect_spec c (dropped c st)). }
  split.
  - intros r Hr.
    assert (roomHost st' !! r = None) as Hnone
      by by rewrite Hhost, decide_True.
    split; [done|]. intros c'. simpl.
    rewrite on_rtc_join_host, Hnone; [done|].
    apply (inv_named st); [by apply reachable_inv | by eexists].
  - intros r h Hr Hne. rewrite Hhost, decide_False; [done | congruence].
Qed.

(** C3, as the handler has it.  The disconnect handler emits one event, the
    presence update, addressed to everybody.  When it is emitted the
    entries of [c] are gone from [onlineUsers], which is the array it
    carries, while the host index is still the one the handler started
    with; the host slots held by [c] are deleted next, in the same
    handler, so that the state the handler leaves has neither. *)
Theorem disconnect_broadcast_then_release (c : str) st :
  ∃ e, output (handle c Disconnect) st = [e]
    ∧ sent_target e = io_emit
    ∧ sent_event e = usersOnline (onlineUsers (sent_at e))
    ∧ (c ∉ socketId <$> onlineUsers (sent_at e))
    ∧ roomHost (sent_at e) = roomHost st
    ∧ onlineUsers (exec (handle c Disconnect) st) = onlineUsers (sent_at e)
    ∧ cleaned_up c (exec (handle c Disconnect) st).
Proof.
  rewrite handle_disconnect_output, handle_disconnect_exec.
  destruct (on_disconnect_spec c (dropped c st)) as (Ho & Hu & _ & _ & Hh).
  eexists. split; [exact Ho|]. cbn [sent_at sent_target sent_event].
  assert (c ∉ socketId <$>
            filter (λ user, socketId user ≠ c) (onlineUsers st)) as Hgone.
  { intros (e & -> & [Hne _]%list_elem_of_filter)%list_elem_of_fmap. done. }
  rewrite Hu. split_and!; try done.
  split; [by rewrite Hu|].
  intros r. rewrite Hh. by destruct (decide _).
Qed.

Lemma filter_others (c : str) (l : list OnlineUser) :
  c ∉ socketId <$> l → filter (λ user, socketId user ≠ c) l = l.
Proof.
  induction l as [|e l IH]; [done|].
  rewrite fmap_cons, not_elem_of_cons. intros [Hne Hl].
  rewrite filter_cons_True by done. by rewrite IH.
Qed.

(** C9.  When [c] has no entry in [onlineUsers], its connect immediately
    followed by its disconnect leaves [onlineUsers] exactly as it was. *)
Theorem connect_disconnect_no_residue (c : str) st :
  c ∉ socketId <$> onlineUsers st →
  onlineUsers (exec (run [(c, Connection); (c, Disconnect)]) st)
  = onlineUsers st.
Proof.
  intros Hc. rewrite !run_cons, run_nil, handle_disconnect_exec.
  destruct (on_disconnect_spec c
              (dropped c (exec (handle c Connection) st))) as (_ & -> & _).
  simpl. rewrite filter_app, filter_others by done.
  by rewrite filter_cons_False, app_nil_r by (simpl; tauto).
Qed.

(** C1, as the handler has it.  In a reachable state, when two distinct
    connected sockets announce the same non-empty userId one after the
    other, each announcement overwrites the announcer's own entry: the
    ids listed in [onlineUsers] are the same as before, in the same order,
    and both the entry of the first announcer and the entry of the second
    bear the userId. *)
Theorem announce_overwrites_own_entry (c1 c2 u : str) st :
  reachable st → c1 ∈ sockets st → c2 ∈ sockets st → c1 ≠ c2 → u ≠ [] →
  let st' := exec (run [(c1, NewUser u); (c2, NewUser u)]) st in
  socketId <$> onlineUsers st' = socketId <$> onlineUsers st
  ∧ {| socketId := c1; userId := u |} ∈ bearing u st'
  ∧ {| socketId := c2; userId := u |} ∈ bearing u st'.
Proof.
  intros Hst H1 H2 Hne Hu st'.
  apply reachable_inv in Hst. apply (inv_presence st Hst) in H1, H2.
  assert (onlineUsers st' =
            announced c2 u (announced c1 u (onlineUsers st))) as Hst'.
  { unfold st'. rewrite !run_cons, run_nil. simpl. unfold exec.
    by rewrite !on_newUser_eq. }
  assert (socketId <$> announced c1 u (onlineUsers st)
          = socketId <$> onlineUsers st) as E1
    by by apply announced_socketIds.
  assert (c2 ∈ socketId <$> announced c1 u (onlineUsers st)) as H2'
    by by rewrite E1.
  unfold bearing. rewrite Hst'.
  split; [by rewrite announced_socketIds, E1|].
  split; apply list_elem_of_filter; (split; [done|]).
  - apply announced_keeps; [exact H2' | by apply announced_has | exact Hne].
  - by apply announced_has.
Qed.

(** C2.  In a reachable state, a room-end request of a connected socket
    for a non-empty room is served in one of two ways.  When the socket is
    the recorded host of the room, one event is emitted, the room-ended
    notification, addressed to the room and so received by every member
    the room has at that time; the host slot of the room is deleted and
    the room is left without any member, the other rooms and the two other
    tables being untouched.  Otherwise one event is emitted, the denial,
    received by the requester alone, and the state is unchanged. *)
Theorem end_room_host_only (sid room : str) st :
  reachable st → sid ∈ sockets st → room ≠ [] →
  let st' := exec (handle sid (MeetingEnd room)) st in
  (roomHost st !! room = Some sid →
     output (handle sid (MeetingEnd room)) st =
       [{| sent_at := st; sent_target := io_to room;
           sent_event := meeting_ended |}]
     ∧ recipients st (io_to room) = members st room
     ∧ roomHost st' = delete room (roomHost st)
     ∧ members st' room = ∅
     ∧ (∀ r, r ≠ room → rooms st' !! r = rooms st !! r)
     ∧ onlineUsers st' = onlineUsers st
     ∧ sockets st' = sockets st)
  ∧ (roomHost st !! room ≠ Some sid →
     handle sid (MeetingEnd room) st =
       ((), st, [{| sent_at := st; sent_target := socket_emit sid;
                    sent_event := meeting_end_denied |}])
     ∧ recipients st (socket_emit sid) = {[sid]}).
Proof.
  intros Hst Hsid Hroom st'. apply reachable_inv in Hst. split.
  - intros Hhost.
    assert (sid ≠ []) as Hne by (intros ->; by apply (inv_ids st)).
    destruct (on_meeting_end_host sid room st Hroom Hne Hhost) as [Ho He].
    unfold st'. simpl. rewrite Ho, He.
    set (st1 := {| onlineUsers := onlineUsers st;
                   roomHost := delete room (roomHost st);
                   sockets := sockets st; rooms := rooms st |}).
    destruct (leave_loop room (elements (members st room)) st1)
      as (Hlo & Hu & Hh & Hs & Hr & Hm & _).
    rewrite Hlo, Hu, Hh, Hs. split_and!; try done.
    apply set_eq. intros c. rewrite Hm. split; [|set_solver].
    intros [Hc Hnot]. exfalso. apply Hnot.
    change (members st1 room) with (members st room) in Hc.
    split; [by apply elem_of_elements|].
    unfold members in Hc.
    destruct (rooms st !! room) as [s|] eqn:E; simpl in Hc; [|set_solver].
    by apply (inv_members st Hst room s).
  - intros Hhost. simpl. by rewrite on_meeting_end_denied.
Qed.

(** ** The scenarios *)

Lemma two_connected_reachable : reachable two_connected.
Proof. apply reachable_run; [apply reachable_initial | by vm_compute]. Qed.

Lemma hosted_reachable : reachable hosted.
Proof.
  apply reachable_run; [apply two_connected_reachable | by vm_compute].
Qed.

Lemma chat_blank_dropped_witness :
  trimmedMessage (Some (text_only "   ")) = Some []
  ∧ on_chat_message sock1 (Some (text_only "   ")) (js "now") two_connected
    = ((), two_connected, []).
Proof.
  split; [by vm_compute|].
  apply (chat_blank_dropped sock1 (js "now") two_connected). right.
  by vm_compute.
Defined.

Lemma chat_relayed_witness :
  payload_message (text_only "  hi  ") = Some (js "  hi  ")
  ∧ trim (js "  hi  ") ≠ []
  ∧ ∃ out,
      on_chat_message sock1 (Some (text_only "  hi  "))
        (toISOString 1700000000000) alice_announced
      = ((), alice_announced,
         [{| sent_at := alice_announced; sent_target := io_emit;
             sent_event := chat_message out |}])
      ∧ out_message out = js "hi"
      ∧ out_userId out = js "alice"
      ∧ out_timestamp out = js "2023-11-14T22:13:20.000Z".
Proof.
  assert (payload_message (text_only "  hi  ") = Some (js "  hi  "))
    as Hm by done.
  assert (trim (js "  hi  ") ≠ []) as Hne by by vm_compute.
  destruct (chat_relayed sock1 1700000000000 alice_announced
              (text_only "  hi  ") (js "  hi  ") Hm Hne)
    as (out & Ho & _ & _ & Hmsg & _ & Hu & _ & Ht).
  split; [exact Hm|]. split; [exact Hne|].
  exists out. split_and!; [exact Ho | | |].
  - rewrite Hmsg. by vm_compute.
  - destruct (Hu (or_introl eq_refl)) as [Hfirst _].
    destruct (Hfirst [] {| socketId := sock1; userId := js "alice" |}
                [{| socketId := sock2; userId := [] |}])
      as [Hname _]; [by vm_compute | done | by intros ? []%elem_of_nil |].
    by apply Hname.
  - destruct (Ht eq_refl) as [-> _]. by vm_compute.
Defined.

Lemma first_joiner_is_host_witness :
  room1 ≠ []
  ∧ roomHost (exec (run (joins room1 [sock1; sock2])) two_connected)
      !! room1 = Some sock1.
Proof.
  split; [done|].
  by rewrite (first_joiner_is_host room1 [sock1; sock2] two_connected).
Defined.

Lemma disconnect_releases_every_room_witness :
  reachable hosted
  ∧ roomHost hosted !! room1 = Some sock1
  ∧ roomHost hosted !! room2 = Some sock1
  ∧ roomHost (exec (handle sock1 Disconnect) hosted) !! room1 = None
  ∧ roomHost (exec (handle sock1 Disconnect) hosted) !! room2 = None
  ∧ roomHost (exec (handle sock2 (RtcJoin room2))
                (exec (handle sock1 Disconnect) hosted)) !! room2 = Some sock2.
Proof.
  pose proof (disconnect_releases_every_room sock1 hosted hosted_reachable)
    as [Hrel _].
  assert (roomHost hosted !! room1 = Some sock1) as H1 by by vm_compute.
  assert (roomHost hosted !! room2 = Some sock1) as H2 by by vm_compute.
  destruct (Hrel room1 H1) as [Hr1 _].
  destruct (Hrel room2 H2) as [Hr2 Hnext].
  split_and!;
    [exact hosted_reachable | exact H1 | exact H2 | exact Hr1 | exact Hr2
    | exact (Hnext sock2)].
Defined.

Lemma connect_disconnect_no_residue_witness :
  (sock3 ∉ socketId <$> onlineUsers two_connected)
  ∧ onlineUsers (exec (run [(sock3, Connection); (sock3, Disconnect)])
                   two_connected)
    = onlineUsers two_connected.
Proof.
  assert (sock3 ∉ socketId <$> onlineUsers two_connected) as H.
  { apply (bool_decide_unpack _). by vm_compute. }
  split; [done|]. by apply connect_disconnect_no_residue.
Defined.

Lemma host_is_always_connected_witness :
  reachable hosted
  ∧ hosts_connected hosted
  ∧ hosts_connected (exec (handle sock1 Disconnect) hosted).
Proof.
  destruct (host_is_always_connected hosted hosted_reachable)
    as (H & Hstep & _).
  split_and!; [apply hosted_reachable | done |].
  apply Hstep. by vm_compute.
Defined.

Lemma announce_overwrites_own_entry_witness :
  reachable two_connected
  ∧ sock1 ∈ sockets two_connected ∧ sock2 ∈ sockets two_connected
  ∧ sock1 ≠ sock2 ∧ js "u" ≠ []
  ∧ {| socketId := sock1; userId := js "u" |}
      ∈ bearing (js "u")
          (exec (run [(sock1, NewUser (js "u")); (sock2, NewUser (js "u"))])
             two_connected)
  ∧ {| socketId := sock2; userId := js "u" |}
      ∈ bearing (js "u")
          (exec (run [(sock1, NewUser (js "u")); (sock2, NewUser (js "u"))])
             two_connected).
Proof.
  assert (sock1 ∈ sockets two_connected) as H1 by by vm_compute.
  assert (sock2 ∈ sockets two_connected) as H2 by by vm_compute.
  assert (sock1 ≠ sock2) as Hne by done.
  assert (js "u" ≠ []) as Hu by done.
  destruct (announce_overwrites_own_entry sock1 sock2 (js "u") two_connected
              two_connected_reachable H1 H2 Hne Hu) as (_ & Ha & Hb).
  by split_and!; [apply two_connected_reachable|..].
Defined.

Lemma end_room_host_only_witness :
  reachable hosted ∧ sock1 ∈ sockets hosted ∧ sock2 ∈ sockets hosted
  ∧ room1 ≠ []
  ∧ roomHost hosted !! room1 = Some sock1
  ∧ members hosted room1 = {[sock1; sock2]}
  ∧ output (handle sock1 (MeetingEnd room1)) hosted =
      [{| sent_at := hosted; sent_target := io_to room1;
          sent_event := meeting_ended |}]
  ∧ roomHost (exec (handle sock1 (MeetingEnd room1)) hosted) !! room1 = None
  ∧ members (exec (handle sock1 (MeetingEnd room1)) hosted) room1 = ∅
  ∧ handle sock2 (MeetingEnd room1) hosted =
      ((), hosted, [{| sent_at := hosted; sent_target := socket_emit sock2;
                       sent_event := meeting_end_denied |}]).
Proof.
  assert (sock1 ∈ sockets hosted) as H1 by by vm_compute.
  assert (sock2 ∈ sockets hosted) as H2 by by vm_compute.
  assert (room1 ≠ []) as Hr by done.
  assert (roomHost hosted !! room1 = Some sock1) as Hh by by vm_compute.
  destruct (end_room_host_only sock1 room1 hosted hosted_reachable H1 Hr)
    as [Hhost _].
  destruct (Hhost Hh) as (Ho & _ & Hd & Hm & _).
  destruct (end_room_host_only sock2 room1 hosted hosted_reachable H2 Hr)
    as [_ Hden].
  destruct Hden as [Hden _]; [by rewrite Hh|].
  assert (members hosted room1 = {[sock1; sock2]}) as Hmem by by vm_compute.
  split_and!;
    [exact hosted_reachable | exact H1 | exact H2 | exact Hr | exact Hh
    | exact Hmem | exact Ho | | exact Hm | exact Hden].
  rewrite Hd. apply lookup_delete_eq.
Defined.

(** C1 as stated fails.  [sock1] and [sock2] are distinct and connected;
    after both have announced the userId [u], it is not the case that
    exactly one entry bears [u] and belongs to [sock2]: two entries bear
    it. *)
Lemma same_userId_kept_twice :
  let st' := exec (run [(sock1, NewUser (js "u")); (sock2, NewUser (js "u"))])
               two_connected in
  (reachable two_connected ∧ sock1 ≠ sock2
   ∧ sock1 ∈ sockets two_connected ∧ sock2 ∈ sockets two_connected)
  ∧ bearing (js "u") st' =
      [{| socketId := sock1; userId := js "u" |};
       {| socketId := sock2; userId := js "u" |}]
  ∧ ¬ ∃ e, bearing (js "u") st' = [e] ∧ socketId e = sock2.
Proof.
  assert (bearing (js "u")
            (exec (run [(sock1, NewUser (js "u")); (sock2, NewUser (js "u"))])
               two_connected)
          = [{| socketId := sock1; userId := js "u" |};
             {| socketId := sock2; userId := js "u" |}]) as E by by vm_compute.
  split_and!.
  - exact two_connected_reachable.
  - done.
  - by vm_compute.
  - by vm_compute.
  - exact E.
  - intros (e & He & _). rewrite E in He. discriminate He.
Qed.

Lemma disconnect_order_at_hosted :
  ∃ e, e ∈ output (handle sock1 Disconnect) hosted
       ∧ roomHost (sent_at e) !! room1 = Some sock1.
Proof.
  rewrite handle_disconnect_output.
  destruct (on_disconnect_spec sock1 (dropped sock1 hosted)) as (-> & _).
  eexists. split; [apply list_elem_of_here|]. by vm_compute.
Qed.

(** C3 as stated fails.  [sock1] is the host of [room1] and [room2] and
    disconnects: in the state in which the presence update is emitted
    [sock1] is still recorded as the host of [room1], so the release of its
    host slots has not completed before the broadcast. *)
Lemma broadcast_before_host_release :
  ¬ ∀ e, e ∈ output (handle sock1 Disconnect) hosted →
         cleaned_up sock1 (sent_at e).
Proof.
  intros Hclaim.
  destruct (disconnect_order_at_hosted) as (e & He & Hhost).
  destruct (Hclaim e He) as [_ Hfree].
  by apply (Hfree room1).
Qed.




(** The same addressing loses an offer.  [sock2] has joined the room
    named by the id of [sock1]; the offer that [sock1] then sends to
    [sock2] reaches nobody, because [socket.to] leaves out every member
    of the sender's id room, and [sock2] is one. *)
Example offer_lost_in_id_room_of_sender :
  let st := exec (handle sock2 (RtcJoin sock1)) two_connected in
  reachable st
  ∧ ∃ e, output (handle sock1 (RtcOffer room1 sock2 sdp)) st = [e]
         ∧ sent_event e = rtc_offer sock1 sdp
         ∧ delivered_to e = ∅.
Proof.
  split.
  - apply reachable_step; [apply two_connected_reachable | by vm_compute].
  - eexists. split; [reflexivity|]. split; by vm_compute.
Qed.

(** ** The two end-to-end examples of the specification *)

Example chat_end_to_end :
  let st := exec (run [(sock1, Connection); (sock1, NewUser (js "alice"));
                       (sock2, Connection); (sock2, NewUser (js "bob"))])
              initial in
  ∃ e, output (handle sock1 (ChatSend (Some (text_only "  hi  ")) (js "now")))
         st = [e]
       ∧ sent_event e =
           chat_message {| out_userId := js "alice"; out_message := js "hi";
                           out_timestamp := js "now" |}
       ∧ delivered_to e = {[sock1; sock2]}.
Proof. eexists. split; [reflexivity|]. split; by vm_compute. Qed.

Example end_request_of_second_joiner :
  let st := exec (run [(sock1, RtcJoin room1); (sock2, RtcJoin room1)])
              two_connected in
  ∃ e, output (handle sock2 (MeetingEnd room1)) st = [e]
       ∧ sent_event e = meeting_end_denied
       ∧ delivered_to e = {[sock2]}.
Proof. eexists. split; [by vm_compute|]. split; by vm_compute. Qed.

(** * Further properties of the code *)

(** ** [trim] *)

Lemma trimStart_white (l s : str) :
  Forall (λ c, is_white_space c = true) l →
  trimStart (l ++ s) = trimStart s.
Proof.
  induction 1 as [|c l Hc _ IH]; [done|]. simpl. by rewrite Hc.
Qed.

Lemma trimStart_head (c : N) (s : str) :
  is_white_space c = false → trimStart (c :: s) = c :: s.
Proof. intros Hc. simpl. by rewrite Hc. Qed.

Lemma trimStart_split (s : str) :
  ∃ l, s = l ++ trimStart s
       ∧ Forall (λ c, is_white_space c = true) l
       ∧ ∀ c, head (trimStart s) = Some c → is_white_space c = false.
Proof.
  induction s as [|c s (l & Hs & Hl & Hh)].
  - exists []. by split_and!.
  - simpl. destruct (is_white_space c) eqn:Hc.
    + exists (c :: l). split_and!; [by rewrite Hs at 1 | by constructor | done].
    + exists []. split_and!; [done | done |]. simpl. by intros ? [= <-].
Qed.

Lemma trimEnd_split (s : str) :
  ∃ r, s = trimEnd s ++ r
       ∧ Forall (λ c, is_white_space c = true) r
       ∧ ∀ c, last (trimEnd s) = Some c → is_white_space c = false.
Proof.
  unfold trimEnd. destruct (trimStart_split (reverse s)) as (l & Hs & Hl & Hh).
  exists (reverse l). split_and!.
  - rewrite <- reverse_app, <- Hs. by rewrite reverse_involutive.
  - by apply Forall_reverse.
  - intros c. rewrite last_reverse. apply Hh.
Qed.

(** [trim] removes white space at both ends, and only there. *)
Lemma trim_split (s : str) :
  ∃ l r, s = l ++ trim s ++ r
         ∧ Forall (λ c, is_white_space c = true) l
         ∧ Forall (λ c, is_white_space c = true) r
         ∧ (∀ c, head (trim s) = Some c → is_white_space c = false)
         ∧ (∀ c, last (trim s) = Some c → is_white_space c = false).
Proof.
  unfold trim. destruct (trimStart_split s) as (l & Hs & Hl & Hh).
  destruct (trimEnd_split (trimStart s)) as (r & Ht & Hr & Hlast).
  exists l, r. split_and!; try done.
  - by rewrite <- Ht.
  - intros c Hc. apply Hh. rewrite Ht.
    destruct (trimEnd (trimStart s)); [done|]. done.
Qed.

Lemma trim_middle (l m r : str) :
  Forall (λ c, is_white_space c = true) l →
  Forall (λ c, is_white_space c = true) r →
  (∀ c, head m = Some c → is_white_space c = false) →
  (∀ c, last m = Some c → is_white_space c = false) →
  trim (l ++ m ++ r) = m.
Proof.
  intros Hl Hr Hh Hlast. unfold trim. rewrite trimStart_white by done.
  destruct m as [|c m].
  - simpl. assert (trimStart r = []) as ->.
    { rewrite <- (app_nil_r r). by rewrite trimStart_white. }
    done.
  - assert (trimStart ((c :: m) ++ r) = (c :: m) ++ r) as ->
      by (apply trimStart_head, Hh; done).
    unfold trimEnd. rewrite reverse_app.
    rewrite trimStart_white by by apply Forall_reverse.
    destruct (reverse (c :: m)) as [|d m'] eqn:E.
    { by apply (f_equal length) in E; rewrite length_reverse in E. }
    rewrite trimStart_head.
    + by rewrite <- E, reverse_involutive.
    + apply Hlast. by rewrite <- (reverse_involutive (c :: m)), E, last_reverse.
Qed.

Lemma trim_white (s : str) :
  trim s = [] ↔ Forall (λ c, is_white_space c = true) s.
Proof.
  split.
  - intros Ht. destruct (trim_split s) as (l & r & Hs & Hl & Hr & _).
    rewrite Hs, Ht. by apply Forall_app.
  - intros Hs. rewrite <- (app_nil_r s). by apply (trim_middle s [] []).
Qed.

Lemma trim_elem_of (s : str) (c : N) : c ∈ trim s → c ∈ s.
Proof.
  intros Hc. destruct (trim_split s) as (l & r & Hs & _).
  rewrite Hs, !elem_of_app. auto.
Qed.

Lemma trim_trimmed (s : str) : trimmed (trim s).
Proof. destruct (trim_split s) as (l & r & _ & _ & _ & Hh & Hl). by split. Qed.

Lemma trimmed_trim (s : str) : trimmed s → trim s = s.
Proof.
  intros [Hh Hl]. rewrite <- (app_nil_r s) at 1.
  by apply (trim_middle [] s []).
Qed.

(** ** The configured origins *)

Lemma split_unfold (c : N) (s : str) :
  split (c :: s) =
    if c =? 44 then [] :: split s
    else match split s with
         | w :: ws => (c :: w) :: ws
         | [] => []
         end.
Proof.
  unfold split. simpl. destruct (split_comma s) as [w ws].
  by destruct (c =? 44).
Qed.

Lemma split_nonempty (s : str) : split s ≠ [].
Proof. unfold split. by destruct (split_comma s). Qed.

(** The pieces hold the characters between the commas. *)
Lemma split_pieces (s : str) :
  (∀ w c, w ∈ split s → c ∈ w → c ∈ s ∧ c ≠ 44)
  ∧ (∀ c, c ∈ s → c = 44 ∨ ∃ w, w ∈ split s ∧ c ∈ w).
Proof.
  induction s as [|d s [IH1 IH2]].
  - split.
    + intros w c [->|[]%elem_of_nil]%elem_of_cons []%elem_of_nil.
    + intros c []%elem_of_nil.
  - rewrite split_unfold. pose proof (split_nonempty s) as Hne.
    destruct (N.eqb_spec d 44) as [->|Hd].
    + split.
      * intros w c [->|Hw]%elem_of_cons Hc; [by apply elem_of_nil in Hc|].
        destruct (IH1 w c Hw Hc). split; [by right|done].
      * intros c [->|Hc]%elem_of_cons; [by left|].
        destruct (IH2 c Hc) as [->|(w & Hw & Hcw)]; [by left|].
        right. exists w. split; [by right|done].
    + destruct (split s) as [|w0 ws]; [done|]. split.
      * intros w c [->|Hw]%elem_of_cons Hc.
        -- apply elem_of_cons in Hc as [->|Hc]; [split; [by left|done]|].
           destruct (IH1 w0 c) as [? ?]; [by left|done|]. split; [by right|done].
        -- destruct (IH1 w c) as [? ?]; [by right|done|]. split; [by right|done].
      * intros c [->|Hc]%elem_of_cons.
        -- right. exists (d :: w0). split; by left.
        -- destruct (IH2 c Hc) as [->|(w & Hw & Hcw)]; [by left|].
           right. apply elem_of_cons in Hw as [->|Hw].
           ++ exists (d :: w0). split; [by left|by right].
           ++ exists w. split; [by right|done].
Qed.

Lemma split_app_comma (e t : str) :
  44 ∉ e → split (e ++ 44 :: t) = e :: split t.
Proof.
  induction e as [|c e IH]; intros He.
  - simpl. by rewrite split_unfold.
  - apply not_elem_of_cons in He as [Hc He]. simpl.
    rewrite split_unfold, IH by done.
    by destruct (N.eqb_spec c 44).
Qed.

Lemma split_no_comma (e : str) : 44 ∉ e → split e = [e].
Proof.
  induction e as [|c e IH]; intros He; [done|].
  apply not_elem_of_cons in He as [Hc He].
  rewrite split_unfold, IH by done. by destruct (N.eqb_spec c 44).
Qed.

Lemma split_join (entries : list str) :
  entries ≠ [] → Forall (λ e, 44 ∉ e) entries →
  split (join_comma entries) = entries.
Proof.
  induction entries as [|e rest IH]; [done|]. intros _ Hall.
  apply Forall_cons in Hall as [He Hrest].
  destruct rest as [|e' rest]; [by apply split_no_comma|].
  change (join_comma (e :: e' :: rest))
    with (e ++ 44 :: join_comma (e' :: rest)).
  rewrite split_app_comma by done. by rewrite IH.
Qed.

Lemma filter_nil_iff {A} (P : A → Prop) `{∀ x, Decision (P x)} (l : list A) :
  filter P l = [] ↔ ∀ x, x ∈ l → ¬ P x.
Proof.
  split.
  - intros Hf x Hx HP. by apply (filter_nil_not_elem_of P l x).
  - intros Hall. induction l as [|x l IH]; [done|].
    rewrite filter_cons_False by (apply Hall; by left).
    apply IH. intros y Hy. apply Hall. by right.
Qed.

Lemma filter_all {A} (P : A → Prop) `{∀ x, Decision (P x)} (l : list A) :
  Forall P l → filter P l = l.
Proof.
  induction 1 as [|x l Hx _ IH]; [done|].
  by rewrite filter_cons_True, IH by done.
Qed.

Lemma origins_empty (ORIGIN : option str) :
  origins ORIGIN = [] ↔
  ∀ c, c ∈ default [] ORIGIN → is_white_space c = true ∨ c = 44.
Proof.
  unfold origins. set (s := default [] ORIGIN).
  destruct (split_pieces s) as [Hin Hcover].
  rewrite filter_nil_iff. split.
  - intros Hall c Hc. destruct (Hcover c Hc) as [->|(w & Hw & Hcw)]; [by right|].
    left. assert (trim w = []) as Ht.
    { destruct (decide (trim w = [])) as [|Hne]; [done|].
      destruct (Hall (trim w)); [by apply list_elem_of_fmap_2 | done]. }
    apply trim_white in Ht. by apply (proj1 (Forall_forall _ _) Ht).
  - intros Hall e (w & -> & Hw)%list_elem_of_fmap Hne. apply Hne.
    apply trim_white, Forall_forall. intros c Hc.
    destruct (Hin w c Hw Hc) as [Hs Hcomma].
    by destruct (Hall c Hs).
Qed.

(** X1.  Every configured origin is a proper entry: it is not empty, it
    holds no comma, and it neither starts nor ends with white space. *)
Theorem origins_are_entries (ORIGIN : option str) (e : str) :
  e ∈ origins ORIGIN → is_entry e.
Proof.
  unfold origins. intros [Hne (w & -> & Hw)%list_elem_of_fmap]%list_elem_of_filter.
  split_and!; [done| |apply trim_trimmed].
  intros Hc%trim_elem_of.
  destruct (split_pieces (default [] ORIGIN)) as [Hin _].
  by destruct (Hin w 44 Hw Hc).
Qed.

(** X2.  No origin is configured exactly when [ORIGIN] is not set or holds
    nothing but white space and commas, and then every request origin is
    admitted. *)
Theorem blank_configuration_admits_all (ORIGIN : option str) :
  (origins ORIGIN = [] ↔
   ∀ c, c ∈ default [] ORIGIN → is_white_space c = true ∨ c = 44)
  ∧ (origins ORIGIN = [] →
     ∀ requestOrigin,
       isAllowedOrigin (origins ORIGIN) requestOrigin = Returns true).
Proof.
  split; [apply origins_empty|].
  intros -> [o|]; [|done]. simpl. by destruct (falsy o).
Qed.

(** X3.  Writing proper entries with commas between them and reading the
    result back gives the entries, in the same order. *)
Theorem origins_of_joined_entries (entries : list str) :
  Forall is_entry entries →
  origins (Some (join_comma entries)) = entries.
Proof.
  intros Hall. destruct entries as [|e rest]; [done|].
  unfold origins.
  change (default [] (Some (join_comma (e :: rest))))
    with (join_comma (e :: rest)).
  rewrite split_join.
  - assert (trim <$> e :: rest = e :: rest) as ->.
    { apply list_eq. intros i. rewrite list_lookup_fmap.
      destruct ((e :: rest) !! i) as [x|] eqn:E; [|done]. simpl. f_equal.
      apply trimmed_trim.
      by destruct (proj1 (Forall_forall _ _) Hall x
                     (list_elem_of_lookup_2 _ _ _ E)) as (_ & _ & ?). }
    apply filter_all. eapply Forall_impl; [exact Hall|]. by intros x [? _].
  - done.
  - eapply Forall_impl; [exact Hall|]. by intros x (_ & ? & _).
Qed.

(** ** The pattern of a wildcard rule *)

Lemma replace_cons_ne (c : N) (s : str) :
  c ≠ 92 → replace_escaped_star (c :: s) = c :: replace_escaped_star s.
Proof.
  intros Hc. simpl. destruct s as [|d s]; [done|].
  by destruct (N.eqb_spec c 92).
Qed.

Lemma replace_backslash_ne (d : N) (s : str) :
  d ≠ 42 →
  replace_escaped_star (92 :: d :: s) = 92 :: replace_escaped_star (d :: s).
Proof. intros Hd. simpl. by destruct (N.eqb_spec d 42). Qed.

Lemma escape_special_cons (c : N) (rule : str) :
  escape_special (c :: rule) =
    (if is_escaped_by_rule c then [92; c] else [c]) ++ escape_special rule.
Proof. done. Qed.

(** The escaped rule starts with a star only when the rule does. *)
Lemma escape_special_head (d : N) (rule : str) :
  d ≠ 42 → ∃ h t, escape_special (d :: rule) = h :: t ∧ h ≠ 42.
Proof.
  intros Hd. rewrite escape_special_cons.
  destruct (is_escaped_by_rule d); simpl; eauto.
Qed.

(** The source given to [new RegExp] is always in the modelled part of
    the syntax, and its tokens are those read off the rule. *)
Lemma escaped_tokens (rule : str) :
  tokens (escaped rule) = Some (rule_tokens rule).
Proof.
  unfold escaped. remember (length rule) as n eqn:Hn. revert rule Hn.
  induction n as [n IH] using lt_wf_ind. intros [|c r1] Hn; [done|].
  simpl in Hn. rewrite escape_special_cons.
  destruct (N.eqb_spec c 92) as [->|Hbs].
  - change (is_escaped_by_rule 92) with true. cbn [app].
    rewrite replace_backslash_ne by done.
    destruct r1 as [|d r2].
    + done.
    + destruct (N.eqb_spec d 42) as [->|Hd].
      * rewrite escape_special_cons.
        change (is_escaped_by_rule 42) with false. cbn [app].
        change (replace_escaped_star (92 :: 42 :: escape_special r2))
          with (46 :: 42 :: replace_escaped_star (escape_special r2)).
        cbn [tokens rule_tokens N.eqb Pos.eqb is_syntax_character
             is_escaped_by_rule orb].
        by rewrite (IH (length r2)) by (simpl in Hn; lia || done).
      * destruct (escape_special_head d r2 Hd) as (h & t & E & Hh).
        rewrite E, replace_backslash_ne by done. rewrite <- E.
        cbn [tokens]. change (92 =? 92) with true.
        change (is_syntax_character 92) with true. cbn iota.
        rewrite (IH (length (d :: r2))) by (simpl in Hn; simpl; lia || done).
        cbn [rule_tokens]. change (92 =? 92) with true. cbn iota.
        by rewrite (proj2 (N.eqb_neq d 42)) by done.
  - destruct (N.eqb_spec c 42) as [->|Hst].
    + change (is_escaped_by_rule 42) with false. cbn [app].
      rewrite replace_cons_ne by done. cbn [tokens rule_tokens].
      change (42 =? 92) with false. change (42 =? 42) with true. cbn iota.
      by rewrite (IH (length r1)) by (lia || done).
    + cbn [rule_tokens].
      rewrite (proj2 (N.eqb_neq c 92)), (proj2 (N.eqb_neq c 42)) by done.
      destruct (is_escaped_by_rule c) eqn:Hsp; cbn [app].
      * rewrite replace_backslash_ne, replace_cons_ne by done.
        cbn [tokens]. change (92 =? 92) with true. cbn iota.
        unfold is_syntax_character. rewrite Hsp. cbn [orb].
        by rewrite (IH (length r1)) by (lia || done).
      * rewrite replace_cons_ne by done. cbn [tokens].
        rewrite (proj2 (N.eqb_neq c 92)), (proj2 (N.eqb_neq c 42)) by done.
        unfold is_syntax_character.
        rewrite Hsp, (proj2 (N.eqb_neq c 42)) by done. cbn [orb].
        by rewrite (IH (length r1)) by (lia || done).
Qed.

Lemma terms_rule_tokens (rule : str) :
  terms (rule_tokens rule) = rule_terms rule.
Proof.
  remember (length rule) as n eqn:Hn. revert rule Hn.
  induction n as [n IH] using lt_wf_ind. intros [|c r1] Hn; [done|].
  simpl in Hn. cbn [rule_tokens rule_terms].
  destruct (N.eqb_spec c 42) as [->|Hst]; [done|].
  destruct r1 as [|d r2].
  - by destruct (N.eqb_spec c 92) as [->|?].
  - destruct (N.eqb_spec d 42) as [->|Hd].
    + destruct (N.eqb_spec c 92) as [->|Hbs]; cbn [terms rule_tokens];
        [|change (42 =? 92) with false; change (42 =? 42) with true;
          cbn iota; cbn [terms]];
        by rewrite (IH (length r2)) by (simpl in Hn; lia || done).
    + assert (terms (TLit c :: rule_tokens (d :: r2)) =
                ((c, false) ::.) <$> terms (rule_tokens (d :: r2))) as Ht.
      { cbn [rule_tokens]. rewrite (proj2 (N.eqb_neq d 42)) by done.
        destruct (d =? 92); [|done]. by destruct r2 as [|e r3]; [|destruct (e =? 42)]. }
      destruct (N.eqb_spec c 92) as [->|Hbs];
        rewrite Ht; by rewrite (IH (length (d :: r2))) by (simpl in *; lia || done).
Qed.

(** What [new RegExp] makes of a rule. *)
Lemma compile_rule (rule : str) :
  new_RegExp_anchored (escaped rule) =
    match rule_terms rule with
    | Some p => Compiled p
    | None => SyntaxError
    end.
Proof.
  unfold new_RegExp_anchored. by rewrite escaped_tokens, terms_rule_tokens.
Qed.

Lemma has_double_star_spec (s : str) :
  has_double_star s = true ↔ ∃ pre post, s = pre ++ 42 :: 42 :: post.
Proof.
  induction s as [|c s1 IH]; simpl.
  - split; [done|]. intros (pre & post & E). by destruct pre.
  - destruct s1 as [|d s2].
    + split; [done|]. intros (pre & post & E).
      destruct pre as [|? [|? ?]]; simplify_eq.
    + rewrite orb_true_iff, andb_true_iff, !N.eqb_eq, IH. split.
      * intros [[-> ->]|(pre & post & E)].
        -- by exists [], s2.
        -- exists (c :: pre), post. by rewrite E.
      * intros (pre & post & E). destruct pre as [|c' pre]; simplify_eq/=.
        -- by left.
        -- right. by exists pre, post.
Qed.

(** A rule has a pattern unless one of its stars has nothing to repeat. *)
Lemma rule_terms_None (rule : str) :
  rule_terms rule = None ↔ nothing_to_repeat rule = true.
Proof.
  remember (length rule) as n eqn:Hn. revert rule Hn.
  induction n as [n IH] using lt_wf_ind. intros [|c r1] Hn; [done|].
  simpl in Hn. cbn [rule_terms nothing_to_repeat].
  destruct (N.eqb_spec c 42) as [->|Hst]; [done|].
  rewrite orb_false_l. destruct r1 as [|d r2]; [done|].
  cbn [has_double_star]. rewrite (proj2 (N.eqb_neq c 42)) by done.
  rewrite andb_false_l, orb_false_l.
  destruct (N.eqb_spec d 42) as [->|Hd].
  - rewrite fmap_None, (IH (length r2)) by (simpl in *; lia || done).
    destruct r2 as [|e r3]; [done|]. simpl. by destruct (e =? 42).
  - rewrite fmap_None, (IH (length (d :: r2))) by (simpl in *; lia || done).
    cbn [nothing_to_repeat has_double_star].
    rewrite (proj2 (N.eqb_neq d 42)) by done. by destruct r2.
Qed.

(** The characters of the pattern are characters of the rule, or dots. *)
Lemma rule_terms_chars (rule : str) p :
  rule_terms rule = Some p → ∀ c b, (c, b) ∈ p → c ∈ rule ∨ c = 46.
Proof.
  remember (length rule) as n eqn:Hn. revert rule p Hn.
  induction n as [n IH] using lt_wf_ind. intros [|c r1] p Hn.
  { intros [= <-] ? ? []%elem_of_nil. }
  simpl in Hn. cbn [rule_terms].
  destruct (N.eqb_spec c 42) as [->|Hst]; [done|].
  destruct r1 as [|d r2].
  { intros [= <-] c' b [[= -> ->]|[]%elem_of_nil]%elem_of_cons.
    left. by left. }
  destruct (N.eqb_spec d 42) as [->|Hd].
  - intros (p' & E & ->)%fmap_Some c' b [[= -> ->]|Hin]%elem_of_cons.
    + destruct (N.eqb_spec c 92); [by right | left; by left].
    + destruct (IH (length r2) ltac:(simpl in *; lia) r2 p' eq_refl E c' b Hin);
        [left; by do 2 right | by right].
  - intros (p' & E & ->)%fmap_Some c' b [[= -> ->]|Hin]%elem_of_cons.
    + left. by left.
    + destruct (IH (length (d :: r2)) ltac:(simpl in *; lia) (d :: r2) p'
                  eq_refl E c' b Hin); [left; by right | by right].
Qed.

(** A rule without star has the pattern that spells it. *)
Lemma rule_terms_plain (w : str) :
  42 ∉ w → rule_terms w = Some ((λ c, (c, false)) <$> w).
Proof.
  induction w as [|c w IH]; [done|].
  intros [Hc Hw]%not_elem_of_cons. cbn [rule_terms].
  rewrite (proj2 (N.eqb_neq c 42)) by done.
  destruct w as [|d w]; [done|].
  apply not_elem_of_cons in Hw as Hw'. destruct Hw' as [Hd _].
  rewrite (proj2 (N.eqb_neq d 42)) by done. by rewrite IH.
Qed.

(** ** Matching *)

Lemma test_star_unfold (c : N) p (s : str) :
  test ((c, true) :: p) s =
    test p s
    || match s with
       | d :: s' => (d =? c) && test ((c, true) :: p) s'
       | [] => false
       end.
Proof. by destruct s. Qed.

Lemma test_plain (w : str) p (o : str) :
  test (((λ c, (c, false)) <$> w) ++ p) o = true ↔
  ∃ o', o = w ++ o' ∧ test p o' = true.
Proof.
  revert o. induction w as [|c w IH]; intros o.
  - simpl. split; [by exists o | by intros (o' & -> & ?)].
  - cbn [fmap list_fmap app test]. destruct o as [|d o].
    + split; [done | by intros (o' & ? & _)].
    + rewrite andb_true_iff, N.eqb_eq, IH. split.
      * intros [-> (o' & -> & Ht)]. by exists o'.
      * intros (o' & [= -> ->] & Ht). split; [done | by exists o'].
Qed.

Lemma test_star (c : N) p (o : str) :
  test ((c, true) :: p) o = true ↔
  ∃ n o', o = replicate n c ++ o' ∧ test p o' = true.
Proof.
  split.
  - induction o as [|d o IH]; rewrite test_star_unfold, orb_true_iff.
    + intros [Ht|[=]]. by exists 0%nat, [].
    + intros [Ht|[->%N.eqb_eq (n & o' & -> & Ht)%IH]%andb_true_iff].
      * by exists 0%nat, (d :: o).
      * by exists (S n), o'.
  - intros (n & o' & -> & Ht). induction n as [|n IH].
    + rewrite test_star_unfold. simpl. by rewrite Ht.
    + rewrite test_star_unfold. cbn [replicate app].
      by rewrite N.eqb_refl, IH, orb_true_r.
Qed.

Lemma test_nil (o : str) : test [] o = true ↔ o = [].
Proof. simpl. by rewrite bool_decide_eq_true. Qed.

(** What is matched is made of the characters of the pattern. *)
Lemma test_chars p (o : str) :
  test p o = true → ∀ ch, ch ∈ o → ∃ b, (ch, b) ∈ p.
Proof.
  revert o. induction p as [|[c [|]] p IH]; intros o.
  - intros ->%test_nil ch []%elem_of_nil.
  - intros (n & o' & -> & Ht)%test_star ch [Hch|Hch]%elem_of_app.
    + apply elem_of_replicate in Hch as [-> _]. exists true. by left.
    + destruct (IH o' Ht ch Hch) as [b Hb]. exists b. by right.
  - destruct o as [|d o]; [done|]. cbn [test].
    intros [->%N.eqb_eq Ht]%andb_true_iff ch [->|Hch]%elem_of_cons.
    + exists false. by left.
    + destruct (IH o Ht ch Hch) as [b Hb]. exists b. by right.
Qed.

(** ** [isAllowedOrigin] *)

Lemma includes_star_true (rule : str) : includes_star rule = true ↔ 42 ∈ rule.
Proof. apply bool_decide_eq_true. Qed.

Lemma check_rules_wildcard (rule : str) rest (o : str) :
  rule ≠ [42] → 42 ∈ rule →
  check_rules (rule :: rest) o =
    match rule_terms rule with
    | Some p => if test p o then Returns true else check_rules rest o
    | None => Throws
    end.
Proof.
  intros Hne Hin. cbn [check_rules].
  rewrite bool_decide_eq_false_2 by done.
  rewrite (proj2 (includes_star_true rule)) by done.
  rewrite compile_rule. by destruct (rule_terms rule).
Qed.

Lemma check_rules_plain (rule : str) rest (o : str) :
  42 ∉ rule →
  check_rules (rule :: rest) o =
    if bool_decide (o = rule)
       || endsWith rule netlify_app && endsWith o netlify_app
    then Returns true else check_rules rest o.
Proof.
  intros Hin. cbn [check_rules].
  rewrite bool_decide_eq_false_2 by (intros ->; apply Hin; by left).
  assert (includes_star rule = false) as ->
    by by apply bool_decide_eq_false_2.
  destruct (bool_decide (o = rule)); [done|]. simpl.
  by destruct (endsWith rule netlify_app && endsWith o netlify_app).
Qed.

(** The loop never leaves the modelled part of the pattern syntax. *)
Lemma check_rules_modelled rules (o : str) : check_rules rules o ≠ OutsideModel.
Proof.
  induction rules as [|rule rest IH]; [done|].
  destruct (decide (rule = [42])) as [->|Hne]; [done|].
  destruct (decide (42 ∈ rule)) as [Hin|Hin].
  - rewrite check_rules_wildcard by done.
    destruct (rule_terms rule) as [p|]; [|done]. by destruct (test p o).
  - rewrite check_rules_plain by done. by destruct (_ || _).
Qed.

Lemma isAllowedOrigin_modelled rules requestOrigin :
  isAllowedOrigin rules requestOrigin ≠ OutsideModel.
Proof.
  destruct requestOrigin as [o|]; [|done]. simpl.
  destruct (falsy o); [done|]. destruct (bool_decide (rules = [])); [done|].
  apply check_rules_modelled.
Qed.

Lemma check_rules_app (l1 l2 : list str) (o : str) :
  check_rules (l1 ++ l2) o =
    match check_rules l1 o with
    | Returns false => check_rules l2 o
    | r => r
    end.
Proof.
  induction l1 as [|rule l1 IH]; [done|].
  destruct (decide (rule = [42])) as [->|Hne]; [done|].
  destruct (decide (42 ∈ rule)) as [Hin|Hin].
  - cbn [app]. rewrite !check_rules_wildcard by done.
    destruct (rule_terms rule) as [p|]; [|done]. by destruct (test p o).
  - cbn [app]. rewrite !check_rules_plain by done. by destruct (_ || _).
Qed.

(** X4.  The rules are tried in order and the first one that admits the
    origin, or throws, decides.  So appending rules to a list that is not
    empty never turns an admission into a refusal and never removes an
    exception; an origin the list refuses is judged by the appended rules
    alone. *)
Theorem appended_rules_only_add (l1 l2 : list str) requestOrigin :
  l1 ≠ [] →
  (isAllowedOrigin l1 requestOrigin = Returns true →
   isAllowedOrigin (l1 ++ l2) requestOrigin = Returns true)
  ∧ (isAllowedOrigin l1 requestOrigin = Throws →
     isAllowedOrigin (l1 ++ l2) requestOrigin = Throws)
  ∧ (isAllowedOrigin l1 requestOrigin = Returns false →
     ∃ o, requestOrigin = Some o
          ∧ isAllowedOrigin (l1 ++ l2) requestOrigin = check_rules l2 o).
Proof.
  intros Hne. destruct requestOrigin as [o|]; [|done]. simpl.
  destruct (falsy o); [done|].
  rewrite !bool_decide_eq_false_2 by (by destruct l1).
  rewrite check_rules_app.
  split_and!; intros ->; [done | done | by exists o].
Qed.

(** The loop over rules without star. *)
Lemma check_rules_plain_all (rules : list str) (o : str) :
  Forall (λ rule, 42 ∉ rule) rules →
  (check_rules rules o = Returns true ↔
   o ∈ rules
   ∨ (netlify_app `suffix_of` o
      ∧ ∃ rule, rule ∈ rules ∧ netlify_app `suffix_of` rule))
  ∧ (check_rules rules o = Returns true
     ∨ check_rules rules o = Returns false).
Proof.
  intros Hall. induction Hall as [|rule rest Hrule _ [IH1 IH2]].
  - split; [|by right]. split; [done|].
    intros [[]%elem_of_nil|(_ & r & []%elem_of_nil & _)].
  - rewrite check_rules_plain by done.
    destruct (bool_decide_reflect (o = rule)) as [->|Hor]; simpl.
    { split; [|by left]. split; [|done]. intros _. left. by left. }
    unfold endsWith.
    destruct (bool_decide_reflect (netlify_app `suffix_of` rule)) as [Hr|Hr];
      simpl.
    + destruct (bool_decide_reflect (netlify_app `suffix_of` o)) as [Hs|Hs].
      * split; [|by left]. split; [|done]. intros _. right.
        split; [done|]. exists rule. split; [by left|done].
      * split; [|done]. rewrite IH1. split.
        -- intros [?|[? _]]; [left; by right | done].
        -- intros [[?|?]%elem_of_cons|[? _]]; [done | by left | done].
    + split; [|done]. rewrite IH1. split.
      * intros [?|(? & r & ? & ?)]; [left; by right|].
        right. split; [done|]. exists r. split; [by right|done].
      * intros [[?|?]%elem_of_cons|(? & r & [->|?]%elem_of_cons & ?)];
          [done | by left | done |].
        right. split; [done|]. by exists r.
Qed.

(** X5.  When no rule holds a star, the function returns and never
    throws, and an origin that is not empty is admitted exactly when no
    rule is configured at all, or it is one of the rules, or it ends with
    [.netlify.app] and some rule does too. *)
Theorem plain_rules_admit (rules : list str) (o : str) :
  Forall (λ rule, 42 ∉ rule) rules → o ≠ [] →
  (isAllowedOrigin rules (Some o) = Returns true ↔
   rules = []
   ∨ o ∈ rules
   ∨ (netlify_app `suffix_of` o
      ∧ ∃ rule, rule ∈ rules ∧ netlify_app `suffix_of` rule))
  ∧ (isAllowedOrigin rules (Some o) = Returns true
     ∨ isAllowedOrigin rules (Some o) = Returns false).
Proof.
  intros Hall Ho. cbn [isAllowedOrigin].
  apply falsy_false in Ho as ->.
  destruct (bool_decide_reflect (rules = [])) as [->|Hne].
  - split; [|by left]. split; [by left | done].
  - destruct (check_rules_plain_all rules o Hall) as [Hiff Hret].
    split; [|done]. rewrite Hiff. split; [by right|].
    by intros [?|?].
Qed.

(** X6.  A rule without star that ends with [.netlify.app] opens the
    door to every origin that ends with [.netlify.app], wherever the rule
    is in the list: such an origin is never refused (an earlier rule may
    still throw). *)
Theorem netlify_rule_admits_all_netlify (rules : list str) (rule o : str) :
  rule ∈ rules → 42 ∉ rule →
  netlify_app `suffix_of` rule → netlify_app `suffix_of` o →
  isAllowedOrigin rules (Some o) = Returns true
  ∨ isAllowedOrigin rules (Some o) = Throws.
Proof.
  intros (l1 & l2 & ->)%list_elem_of_split Hstar Hrule Ho. simpl.
  assert (falsy o = false) as ->.
  { apply falsy_false. intros ->. destruct Ho as [k Hk].
    by destruct k. }
  rewrite bool_decide_eq_false_2 by (by destruct l1).
  rewrite check_rules_app. pose proof (check_rules_modelled l1 o) as Hm.
  destruct (check_rules l1 o) as [[|]| |]; [by left| |by right|done].
  left. rewrite check_rules_plain by done. unfold endsWith.
  rewrite (bool_decide_eq_true_2 (netlify_app `suffix_of` rule)) by done.
  rewrite (bool_decide_eq_true_2 (netlify_app `suffix_of` o)) by done.
  by rewrite orb_true_r.
Qed.

Lemma nothing_to_repeat_spec (rule : str) :
  nothing_to_repeat rule = true ↔
  head rule = Some 42 ∨ ∃ pre post, rule = pre ++ 42 :: 42 :: post.
Proof.
  destruct rule as [|c rule].
  - split; [done|]. intros [[=]|(pre & post & E)]. by destruct pre.
  - cbn [nothing_to_repeat head]. rewrite orb_true_iff, N.eqb_eq.
    rewrite has_double_star_spec. split; (intros [H|H]; [left|by right]);
      congruence.
Qed.

Lemma nothing_to_repeat_star (rule : str) :
  nothing_to_repeat rule = true → 42 ∈ rule.
Proof.
  intros [Hh|(pre & post & ->)]%nothing_to_repeat_spec.
  - destruct rule as [|c rule]; simplify_eq/=. by left.
  - apply elem_of_app. right. by left.
Qed.

(** X7.  A wildcard rule other than ["*"] makes the check throw, for
    every origin that is not empty and whatever the rules after it are,
    exactly when it starts with a star or has two stars in a row. *)
Theorem malformed_wildcard_throws (rule : str) :
  rule ≠ [42] →
  (∀ rest o, o ≠ [] → isAllowedOrigin (rule :: rest) (Some o) = Throws)
  ↔ (head rule = Some 42 ∨ ∃ pre post, rule = pre ++ 42 :: 42 :: post).
Proof.
  intros Hne. rewrite <- nothing_to_repeat_spec, <- rule_terms_None. split.
  - intros Hthrow. specialize (Hthrow [] [42] ltac:(done)).
    simpl in Hthrow. rewrite bool_decide_eq_false_2 in Hthrow by done.
    destruct (decide (42 ∈ rule)) as [Hin|Hin].
    + rewrite compile_rule in Hthrow.
      rewrite (proj2 (includes_star_true rule)) in Hthrow by done.
      destruct (rule_terms rule) as [p|]; [|done]. by destruct (test p [42]).
    + assert (includes_star rule = false) as E
        by by apply bool_decide_eq_false_2.
      rewrite E in Hthrow. destruct (bool_decide ([42] = rule)); [done|].
      by destruct (endsWith rule netlify_app && endsWith [42] netlify_app).
  - intros Hnone rest o Ho. simpl. apply falsy_false in Ho as ->.
    change (check_rules (rule :: rest) o = Throws).
    rewrite check_rules_wildcard, Hnone; [done | done |].
    by apply nothing_to_repeat_star, rule_terms_None.
Qed.

(** X8.  A star does not stand for arbitrary text.  With a wildcard
    rule other than ["*"] at the head of the rules: when the origin is
    admitted, it is made of characters of that rule, and dots, or the
    rules after it admit it; and for an origin with a character that is
    neither in the rule nor a dot, the check throws when the rule starts
    with a star or has two stars in a row, and is otherwise decided by
    the rules after it. *)
Theorem wildcard_admits_rule_characters (rule : str) rest (o : str) :
  rule ≠ [42] → 42 ∈ rule →
  (check_rules (rule :: rest) o = Returns true →
   (∀ ch, ch ∈ o → ch ∈ rule ∨ ch = 46)
   ∨ check_rules rest o = Returns true)
  ∧ (∀ ch, ch ∈ o → ch ∉ rule → ch ≠ 46 →
     ((head rule = Some 42 ∨ ∃ pre post, rule = pre ++ 42 :: 42 :: post) →
      check_rules (rule :: rest) o = Throws)
     ∧ (¬ (head rule = Some 42 ∨ ∃ pre post, rule = pre ++ 42 :: 42 :: post) →
        check_rules (rule :: rest) o = check_rules rest o)).
Proof.
  intros Hne Hin. rewrite check_rules_wildcard by done.
  destruct (rule_terms rule) as [p|] eqn:Hp.
  - assert (test p o = true → ∀ ch, ch ∈ o → ch ∈ rule ∨ ch = 46) as Hadm.
    { intros Ht ch Hch. destruct (test_chars p o Ht ch Hch) as [b Hb].
      by apply (rule_terms_chars rule p Hp ch b). }
    split.
    + destruct (test p o); [|by right]. intros _. left. by apply Hadm.
    + intros ch Hch Hrule Hdot. split.
      * intros Hbad%nothing_to_repeat_spec%rule_terms_None. congruence.
      * intros _. destruct (test p o); [|done].
        by destruct (Hadm eq_refl ch Hch).
  - split; [done|]. intros ch Hch Hrule Hdot. split; [done|].
    intros Hok. destruct Hok.
    by apply nothing_to_repeat_spec, rule_terms_None.
Qed.

Lemma rule_terms_single_star (p q : str) (c : N) :
  42 ∉ p → 42 ∉ q → c ≠ 42 → c ≠ 92 →
  rule_terms (p ++ c :: 42 :: q) =
    Some (((λ a, (a, false)) <$> p) ++ (c, true) :: ((λ a, (a, false)) <$> q)).
Proof.
  intros Hp Hq Hc Hbs. induction p as [|a p IH].
  - cbn [app rule_terms fmap list_fmap].
    rewrite (proj2 (N.eqb_neq c 42)), (proj2 (N.eqb_neq c 92)) by done.
    change (42 =? 42) with true. cbn iota. by rewrite rule_terms_plain.
  - apply not_elem_of_cons in Hp as [Ha Hp]. specialize (IH Hp).
    cbn [app rule_terms]. rewrite (proj2 (N.eqb_neq a 42)) by done.
    destruct (p ++ c :: 42 :: q) as [|d r] eqn:E; [by destruct p|].
    assert (d ≠ 42) as Hd.
    { destruct p as [|a' p]; simplify_eq/=; [done|].
      by apply not_elem_of_cons in Hp as [? _]. }
    rewrite (proj2 (N.eqb_neq d 42)) by done. by rewrite IH.
Qed.

(** X9.  In a rule with a single star, after a character [c] that is not
    a backslash, the star stands for any number of copies of [c], [c]
    itself included in the count: the rule admits the origins that spell
    the rule with the two characters [c*] replaced by zero or more [c],
    and leaves every other origin to the rules after it. *)
Theorem single_star_repeats_previous (p q : str) (c : N) rest (o : str) :
  42 ∉ p → 42 ∉ q → c ≠ 42 → c ≠ 92 →
  ((∃ n, o = p ++ replicate n c ++ q) →
   check_rules ((p ++ c :: 42 :: q) :: rest) o = Returns true)
  ∧ ((∀ n, o ≠ p ++ replicate n c ++ q) →
     check_rules ((p ++ c :: 42 :: q) :: rest) o = check_rules rest o).
Proof.
  intros Hp Hq Hc Hbs.
  assert (check_rules ((p ++ c :: 42 :: q) :: rest) o =
            if test (((λ a, (a, false)) <$> p)
                     ++ (c, true) :: ((λ a, (a, false)) <$> q)) o
            then Returns true else check_rules rest o) as ->.
  { rewrite check_rules_wildcard.
    - by rewrite rule_terms_single_star.
    - intros E. by destruct p as [|? [|? ?]].
    - apply elem_of_app. right. right. by left. }
  assert (test (((λ a, (a, false)) <$> p)
                ++ (c, true) :: ((λ a, (a, false)) <$> q)) o = true
          ↔ ∃ n, o = p ++ replicate n c ++ q) as Hiff.
  { rewrite test_plain. split.
    - intros (o1 & -> & (n & o2 & -> & Ht)%test_star).
      exists n. do 2 f_equal.
      rewrite <- (app_nil_r (_ <$> q)) in Ht.
      apply test_plain in Ht as (o3 & -> & ->%test_nil). by rewrite app_nil_r.
    - intros (n & ->). eexists. split; [done|]. apply test_star.
      exists n, q. split; [done|].
      rewrite <- (app_nil_r (_ <$> q)). apply test_plain.
      exists []. by rewrite app_nil_r. }
  split.
  - intros Hex. by rewrite (proj2 Hiff Hex).
  - intros Hno. destruct (test _ o) eqn:Ht; [|done].
    destruct (proj1 Hiff eq_refl) as [n Hn]. by destruct (Hno n).
Qed.

(** ** More on the presence registry *)

Lemma reachable_count st :
  reachable st →
  list_to_set (socketId <$> onlineUsers st) = sockets st
  ∧ NoDup (socketId <$> onlineUsers st).
Proof.
  intros [_ Hp Hu _ _ _]%reachable_inv. split; [|done].
  apply set_eq. intros s. by rewrite elem_of_list_to_set, Hp.
Qed.

(** X10.  In every reachable state [onlineUsers] has exactly one entry
    for each connected socket and no other entry: as many entries as
    sockets, with distinct socket ids, each the id of a connected socket. *)
Theorem one_entry_per_connection st :
  reachable st →
  length (onlineUsers st) = size (sockets st)
  ∧ NoDup (socketId <$> onlineUsers st)
  ∧ ∀ s, s ∈ sockets st ↔ ∃ user, user ∈ onlineUsers st ∧ socketId user = s.
Proof.
  intros Hst. destruct (reachable_count st Hst) as [Hset Hnd].
  split_and!; [|done|].
  - rewrite <- Hset, size_list_to_set by done. by rewrite length_fmap.
  - intros s. rewrite <- Hset, elem_of_list_to_set, list_elem_of_fmap.
    split; intros (user & ? & ?); exists user; by split.
Qed.

(** In the array an announcement leaves, the first entry of the announcer
    is the announced one. *)
Lemma announced_first (sid u : str) (l : list OnlineUser) :
  ∃ i, list_find (λ user, socketId user = sid) (announced sid u l)
       = Some (i, {| socketId := sid; userId := u |}).
Proof.
  unfold announced, findIndex.
  destruct (list_find _ l) as [[i e]|] eqn:Hf; simpl.
  - apply list_find_Some in Hf as (Hi & He & Hbefore). exists i.
    apply list_find_Some. split_and!; [|done|].
    + apply list_lookup_insert_eq. by eapply lookup_lt_Some.
    + intros j y Hj Hlt. rewrite list_lookup_insert_ne in Hj by lia. eauto.
  - apply list_find_None in Hf.
    destruct (some _ l) eqn:Hsome; simpl.
    + apply bool_decide_eq_true in Hsome.
      apply Exists_exists in Hsome as (e & He & Heu).
      set (f := λ user : OnlineUser,
                  if decide (userId user = u)
                  then {| socketId := sid; userId := u |} else user).
      destruct (list_find_elem_of (λ user, socketId user = sid) (f <$> l)
                  (f e)) as [[j y] Hj].
      { by apply list_elem_of_fmap_2. }
      { unfold f. by rewrite decide_True. }
      exists j. rewrite Hj. do 2 f_equal.
      apply list_find_Some in Hj as (Hj & Hy & _).
      rewrite list_lookup_fmap in Hj.
      destruct (l !! j) as [e'|] eqn:E; [|done]. simpl in Hj.
      injection Hj as <-. unfold f in *.
      destruct (decide (userId e' = u)); [done|].
      exfalso. apply (proj1 (Forall_forall _ _) Hf e'); [|done].
      by eapply list_elem_of_lookup_2.
    + exists (length l). apply list_find_Some. split_and!.
      * by rewrite lookup_app_r, Nat.sub_diag by lia.
      * done.
      * intros j y Hj Hlt. rewrite lookup_app_l in Hj by done.
        apply (proj1 (Forall_forall _ _) Hf y).
        by eapply list_elem_of_lookup_2.
Qed.

Lemma announced_idempotent (sid u : str) (l : list OnlineUser) :
  announced sid u (announced sid u l) = announced sid u l.
Proof.
  destruct (announced_first sid u l) as [i Hi].
  rewrite (announced_own_entry sid u (announced sid u l) i _ Hi).
  apply list_insert_id. by apply list_find_Some in Hi as (? & _).
Qed.

(** X11.  Announcing a userId is idempotent: the same announcement of the
    same socket, made twice in a row, leaves the state the first one
    left, whatever the state was. *)
Theorem announce_twice_is_once (sid u : str) st :
  exec (run [(sid, NewUser u); (sid, NewUser u)]) st
  = exec (handle sid (NewUser u)) st.
Proof.
  rewrite !run_cons, run_nil. cbn [handle].
  destruct (decide (u = [])) as [->|Hu]; [done|].
  unfold exec. rewrite !on_newUser_eq by done. simpl.
  by rewrite announced_idempotent.
Qed.

Lemma insert_unique_entry (sid : str) (x : OnlineUser) (l : list OnlineUser) i e :
  NoDup (socketId <$> l) → l !! i = Some e → socketId e = sid →
  <[i := x]> l =
    (λ user, if decide (socketId user = sid) then x else user) <$> l.
Proof.
  intros Hnd Hi He. apply list_eq. intros j.
  rewrite list_lookup_fmap. destruct (decide (j = i)) as [->|Hne].
  - rewrite list_lookup_insert_eq by by eapply lookup_lt_Some.
    rewrite Hi. simpl. by rewrite decide_True.
  - rewrite list_lookup_insert_ne by done.
    destruct (l !! j) as [e'|] eqn:Hj; [|done]. simpl.
    rewrite decide_False; [done|]. intros He'. apply Hne.
    apply (NoDup_lookup (socketId <$> l) j i sid); [done|..];
      rewrite list_lookup_fmap; [by rewrite Hj, <- He' | by rewrite Hi, <- He].
Qed.

(** X12.  In a reachable state the announcement of a connected socket
    rewrites the entry of that socket and nothing else: every entry with
    another socket id is kept as it is, in its place, and the entry of the
    announcer now bears the announced userId. *)
Theorem announce_rewrites_own_entry_only (sid u : str) st :
  reachable st → sid ∈ sockets st → u ≠ [] →
  onlineUsers (exec (handle sid (NewUser u)) st) =
    (λ user, if decide (socketId user = sid)
             then {| socketId := sid; userId := u |} else user)
      <$> onlineUsers st.
Proof.
  intros Hst Hsid Hu. apply reachable_inv in Hst.
  cbn [handle]. unfold exec. rewrite on_newUser_eq by done. simpl.
  apply (inv_presence st Hst), own_entry_found in Hsid
    as (i & e & Hf & Hi & He).
  rewrite (announced_own_entry _ _ _ _ _ Hf).
  apply (insert_unique_entry sid _ _ i e); [apply (inv_unique st Hst)|done..].
Qed.

(** ** More on the rooms *)

(** A request to end a room that is not made by its recorded host, or
    that names no room, changes nothing. *)
Lemma on_meeting_end_refused sid room st :
  ¬ (room ≠ [] ∧ sid ≠ [] ∧ roomHost st !! room = Some sid) →
  exec (on_meeting_end sid room) st = st.
Proof.
  intros Hno. destruct (decide (room = [])) as [->|Hr]; [done|].
  destruct (decide (roomHost st !! room = Some sid)) as [Hh|Hh].
  - destruct (decide (sid = [])) as [->|Hs]; [|by destruct Hno].
    unfold on_meeting_end. apply falsy_false in Hr as ->.
    run_m. by rewrite Hh.
  - unfold exec. by rewrite on_meeting_end_denied.
Qed.

(** What a served request leaves: the host slot deleted and the room
    emptied by the loop. *)
Lemma on_meeting_end_served sid room st :
  room ≠ [] → sid ≠ [] → roomHost st !! room = Some sid →
  let st' := exec (on_meeting_end sid room) st in
  onlineUsers st' = onlineUsers st
  ∧ roomHost st' = delete room (roomHost st)
  ∧ sockets st' = sockets st
  ∧ (∀ r, r ≠ room → rooms st' !! r = rooms st !! r)
  ∧ (∀ c, c ∈ members st' room ↔ c ∈ members st room ∧ c ∉ sockets st).
Proof.
  intros Hr Hs Hh. destruct (on_meeting_end_host sid room st Hr Hs Hh) as [_ He].
  cbv zeta. rewrite He.
  set (st1 := {| onlineUsers := onlineUsers st;
                 roomHost := delete room (roomHost st);
                 sockets := sockets st; rooms := rooms st |}).
  destruct (leave_loop room (elements (members st room)) st1)
    as (_ & Hu & Hhost & Hsock & Hrooms & Hm & _).
  split_and!; try done. intros c. rewrite Hm.
  change (members st1 room) with (members st room).
  change (sockets st1) with (sockets st).
  rewrite elem_of_elements. tauto.
Qed.


(** X14.  A join of a room with a non-empty name makes the joiner a
    member, leaves the other rooms as they are, and emits one event,
    rtc:joined with the joiner's id, with [socket.to(room)] after the
    join.  It reaches the members of the room, the joiner now among them,
    that are not in the id room of the joiner: nobody when the room is the
    joiner's own id room; the earlier members outside the joiner's id room
    when the joiner is still in its id room; and the joiner itself with
    all the earlier members when the joiner's id room is gone. *)
Theorem join_notifies_other_members (sid room : str) st :
  room ≠ [] →
  let st' := exec (handle sid (RtcJoin room)) st in
  ∃ e, output (handle sid (RtcJoin room)) st = [e]
       ∧ sent_event e = rtc_joined sid
       ∧ sent_target e = socket_to sid room
       ∧ delivered_to e =
           (if decide (room = sid) then ∅
            else ({[sid]} ∪ members st room) ∖ members st sid)
       ∧ (sid ∈ members st sid →
          delivered_to e = members st room ∖ members st sid)
       ∧ (members st sid = ∅ → room ≠ sid →
          delivered_to e = {[sid]} ∪ members st room)
       ∧ members st' room = {[sid]} ∪ members st room
       ∧ ∀ r, r ≠ room → members st' r = members st r.
Proof.
  intros Hr. cbn [handle]. unfold exec, output.
  rewrite on_rtc_join_eq by done. cbn zeta. cbn [fst snd].
  set (st' := {| onlineUsers := _; roomHost := _; sockets := _;
                 rooms := _ |}).
  assert (members st' room = {[sid]} ∪ members st room) as Hroom.
  { unfold members at 1. unfold st'. cbn [rooms].
    by rewrite lookup_insert_eq. }
  assert (∀ r, r ≠ room → members st' r = members st r) as Hother.
  { intros r Hne. unfold members at 1. unfold st'. cbn [rooms].
    by rewrite lookup_insert_ne. }
  assert (delivered_to {| sent_at := st'; sent_target := socket_to sid room;
                          sent_event := rtc_joined sid |}
          = if decide (room = sid) then ∅
            else ({[sid]} ∪ members st room) ∖ members st sid) as Hto.
  { unfold delivered_to. cbn [sent_at sent_target recipients].
    destruct (decide (room = sid)) as [->|Hne].
    - set_solver.
    - by rewrite Hroom, (Hother sid) by done. }
  eexists. split; [done|]. rewrite Hto. split_and!; try done.
  - intros Hin. destruct (decide (room = sid)) as [->|Hne]; set_solver.
  - intros Hgone Hne. rewrite decide_False by done. rewrite Hgone.
    set_solver.
Qed.

Lemma leave_state (sid room : str) ev st :
  room ≠ [] → ev = RtcLeave room ∨ ev = MeetingLeave room →
  members (exec (handle sid ev) st) room = members st room ∖ {[sid]}
  ∧ roomHost (exec (handle sid ev) st) = roomHost st.
Proof.
  intros Hr Hev.
  assert (handle sid ev = on_rtc_leave sid room) as ->
    by by destruct Hev as [-> | ->].
  unfold exec. rewrite on_rtc_leave_eq by done. split; [|done].
  unfold members at 1. cbn [rooms snd fst]. by rewrite adapter_del_members.
Qed.

(** X15.  The two leave events do the same: for a non-empty room name the
    socket is taken out of the room, neither the host slots nor the other
    rooms change, and one event, rtc:left with the leaver's id, is emitted
    with [socket.to(room)] after the leave; there is no check that the
    socket was a member.  The event reaches the remaining members that
    are not in the id room of the leaver, and nobody when the room is the
    leaver's own id room. *)
Theorem leave_notifies_remaining_members (sid room : str) ev st :
  room ≠ [] → ev = RtcLeave room ∨ ev = MeetingLeave room →
  let st' := exec (handle sid ev) st in
  ∃ e, output (handle sid ev) st = [e]
       ∧ sent_event e = rtc_left sid
       ∧ sent_target e = socket_to sid room
       ∧ delivered_to e =
           (if decide (room = sid) then ∅
            else members st room ∖ ({[sid]} ∪ members st sid))
       ∧ members st' room = members st room ∖ {[sid]}
       ∧ (∀ r, r ≠ room → members st' r = members st r)
       ∧ roomHost st' = roomHost st
       ∧ onlineUsers st' = onlineUsers st.
Proof.
  intros Hr Hev.
  assert (handle sid ev = on_rtc_leave sid room) as ->
    by by destruct Hev as [-> | ->].
  cbv zeta. unfold exec, output. rewrite on_rtc_leave_eq by done.
  cbn zeta. cbn [fst snd].
  set (st' := {| onlineUsers := _; roomHost := _; sockets := _;
                 rooms := _ |}).
  assert (members st' room = members st room ∖ {[sid]}) as Hroom.
  { unfold members at 1. unfold st'. cbn [rooms].
    by rewrite adapter_del_members. }
  assert (∀ r, r ≠ room → members st' r = members st r) as Hother.
  { intros r Hne. unfold members at 1. unfold st'. cbn [rooms].
    by rewrite adapter_del_lookup_ne. }
  eexists. split; [done|]. split_and!; try done.
  unfold delivered_to. cbn [sent_at sent_target recipients].
  destruct (decide (room = sid)) as [->|Hne].
  - set_solver.
  - rewrite Hroom, (Hother sid) by done. set_solver.
Qed.

(** X16.  Leaving a room does not give up being its host.  In a reachable
    state, when the recorded host of a room leaves it (by either leave
    event), it is still the recorded host, and its request to end the
    room is served: the notification goes to the members that remain, not
    to the host itself. *)
Theorem host_keeps_authority_after_leaving (sid room : str) ev st :
  reachable st → sid ∈ sockets st → roomHost st !! room = Some sid →
  ev = RtcLeave room ∨ ev = MeetingLeave room →
  let st1 := exec (handle sid ev) st in
  roomHost st1 !! room = Some sid
  ∧ output (handle sid (MeetingEnd room)) st1 =
      [{| sent_at := st1; sent_target := io_to room;
          sent_event := meeting_ended |}]
  ∧ sid ∉ recipients st1 (io_to room).
Proof.
  intros Hst Hsid Hh Hev. apply reachable_inv in Hst.
  assert (room ≠ []) as Hr by (apply (inv_named st Hst); by eexists).
  assert (sid ≠ []) as Hs by (intros ->; by apply (inv_ids st Hst)).
  destruct (leave_state sid room ev st Hr Hev)
    as (Hm & Hhost).
  cbv zeta. split_and!.
  - by rewrite Hhost.
  - cbn [handle].
    destruct (on_meeting_end_host sid room (exec (handle sid ev) st))
      as [-> _]; [done | done | by rewrite Hhost |].
    f_equal.
    set (st1 := {| onlineUsers := _; roomHost := _; sockets := _;
                   rooms := _ |}).
    by destruct (leave_loop room
                   (elements (members (exec (handle sid ev) st) room)) st1)
      as (-> & _).
  - cbn [recipients]. rewrite Hm. set_solver.
Qed.

(** X17.  Once its host has ended a room, the room has no host: in the
    state that a served request leaves, every further request to end the
    room is denied, whoever makes it, and the next socket to join the
    room becomes its host. *)
Theorem ended_room_is_free (sid room : str) st :
  reachable st → sid ∈ sockets st → roomHost st !! room = Some sid →
  let st1 := exec (handle sid (MeetingEnd room)) st in
  (∀ c, handle c (MeetingEnd room) st1 =
          ((), st1, [{| sent_at := st1; sent_target := socket_emit c;
                        sent_event := meeting_end_denied |}]))
  ∧ (∀ c, roomHost (exec (handle c (RtcJoin room)) st1) !! room = Some c).
Proof.
  intros Hst Hsid Hh. apply reachable_inv in Hst.
  assert (room ≠ []) as Hr by (apply (inv_named st Hst); by eexists).
  assert (sid ≠ []) as Hs by (intros ->; by apply (inv_ids st Hst)).
  cbv zeta. cbn [handle].
  assert (roomHost (exec (on_meeting_end sid room) st) !! room = None) as Hfree.
  { destruct (on_meeting_end_served sid room st Hr Hs Hh) as (_ & -> & _).
    apply lookup_delete_eq. }
  split; intros c.
  - apply on_meeting_end_denied; [done|]. by rewrite Hfree.
  - by rewrite on_rtc_join_host, Hfree.
Qed.

(** ** No empty room *)

Lemma adapter_del_nonempty (sid room : str) (m : gmap str (gset str)) :
  (∀ r s, m !! r = Some s → s ≠ ∅) →
  ∀ r s, adapter_del sid room m !! r = Some s → s ≠ ∅.
Proof.
  intros Hm r s. destruct (decide (r = room)) as [->|Hne].
  - unfold adapter_del. destruct (m !! room) as [s0|] eqn:E.
    + destruct (decide (s0 ∖ {[sid]} = ∅)).
      * by rewrite lookup_delete_eq.
      * rewrite lookup_insert_eq. by intros [= <-].
    + rewrite E. done.
  - rewrite adapter_del_lookup_ne by done. apply Hm.
Qed.

Lemma leave_loop_nonempty room (l : list str) st :
  no_empty_room st → no_empty_room (exec (for_each l (leave_client room)) st).
Proof.
  revert st. induction l as [|cid l IH]; intros st Hst; [done|].
  cbn [for_each]. rewrite exec_seq. apply IH.
  unfold exec. rewrite leave_client_eq. unfold no_empty_room. simpl.
  destruct (decide (cid ∈ sockets st)); [|done].
  by apply (adapter_del_nonempty _ _ _ Hst).
Qed.

Lemma no_empty_room_step st sid ev :
  no_empty_room st → no_empty_room (exec (handle sid ev) st).
Proof.
  intros Hst.
  destruct ev as [|u|payload now|room|room|room to v|room to v|room to v
                 |room|room|].
  - unfold exec. rewrite handle_connection. intros r s. simpl.
    destruct (decide (r = sid)) as [->|Hne].
    + rewrite lookup_insert_eq. intros [= <-]. set_solver.
    + rewrite lookup_insert_ne by done. apply Hst.
  - cbn [handle]. destruct (decide (u = [])) as [->|Hu]; [done|].
    unfold exec. by rewrite on_newUser_eq.
  - cbn [handle]. by rewrite on_chat_message_state.
  - cbn [handle]. destruct (decide (room = [])) as [->|Hr]; [done|].
    unfold exec. rewrite on_rtc_join_eq by done. intros r s. simpl.
    destruct (decide (r = room)) as [->|Hne].
    + rewrite lookup_insert_eq. intros [= <-]. set_solver.
    + rewrite lookup_insert_ne by done. apply Hst.
  - cbn [handle]. destruct (decide (room = [])) as [->|Hr]; [done|].
    unfold exec. rewrite on_rtc_leave_eq by done.
    intros r s. simpl. by apply (adapter_del_nonempty _ _ _ Hst).
  - cbn [handle]. by rewrite (proj1 (signal_state _ _ _ _ _)).
  - cbn [handle]. by rewrite (proj1 (proj2 (signal_state _ _ _ _ _))).
  - cbn [handle]. by rewrite (proj2 (proj2 (signal_state _ _ _ _ _))).
  - cbn [handle].
    destruct (decide (room ≠ [] ∧ sid ≠ [] ∧ roomHost st !! room = Some sid))
      as [(Hr & Hs & Hhost)|Hno].
    + destruct (on_meeting_end_host sid room st Hr Hs Hhost) as [_ ->].
      by apply leave_loop_nonempty.
    + by rewrite on_meeting_end_refused.
  - change (handle sid (MeetingLeave room)) with (on_rtc_leave sid room).
    destruct (decide (room = [])) as [->|Hr]; [done|].
    unfold exec. rewrite on_rtc_leave_eq by done.
    intros r s. simpl. by apply (adapter_del_nonempty _ _ _ Hst).
  - rewrite handle_disconnect_exec. unfold no_empty_room.
    destruct (on_disconnect_spec sid (dropped sid st)) as (_ & _ & _ & -> & _).
    intros r s (s0 & Hs0 & _)%lookup_omap_Some. simpl in Hs0.
    destruct (decide (s0 ∖ {[sid]} = ∅)); [done|]. by injection Hs0 as <-.
Qed.

Lemma reachable_no_empty_room st : reachable st → no_empty_room st.
Proof.
  induction 1 as [|st sid ev _ IH _].
  - intros r s. simpl. by rewrite lookup_empty.
  - by apply no_empty_room_step.
Qed.

(** The members of a room and the entry of the adapter. *)
Lemma members_lookup st (room : str) :
  no_empty_room st →
  rooms st !! room =
    if decide (members st room = ∅) then None else Some (members st room).
Proof.
  intros Hst. unfold members.
  destruct (rooms st !! room) as [s|] eqn:E; simpl.
  - rewrite decide_False; [done|]. by apply (Hst room).
  - by rewrite decide_True.
Qed.

(** X18.  Joining a room and leaving it again (by either leave event)
    gives the rooms back as they were, when the socket was not a member
    before; the presence entries are untouched.  The host slot is not
    given back: a socket that became the host by joining is still the
    host after it has left. *)
Theorem join_then_leave_restores_rooms (sid room : str) ev st :
  reachable st → room ≠ [] → sid ∉ members st room →
  ev = RtcLeave room ∨ ev = MeetingLeave room →
  let st' := exec (run [(sid, RtcJoin room); (sid, ev)]) st in
  rooms st' = rooms st
  ∧ sockets st' = sockets st
  ∧ onlineUsers st' = onlineUsers st
  ∧ roomHost st' !! room = Some (default sid (roomHost st !! room)).
Proof.
  intros Hst Hr Hsid Hev. apply reachable_no_empty_room in Hst.
  cbv zeta. rewrite !run_cons, run_nil.
  assert (handle sid ev = on_rtc_leave sid room) as ->
    by by destruct Hev as [-> | ->].
  cbn [handle]. unfold exec.
  rewrite on_rtc_join_eq by done. cbn [fst snd].
  rewrite on_rtc_leave_eq by done. cbn [fst snd rooms sockets onlineUsers
                                        roomHost].
  split_and!; [|done|done|].
  - unfold adapter_del. rewrite lookup_insert_eq.
    assert (({[sid]} ∪ members st room) ∖ {[sid]} = members st room) as ->
      by set_solver.
    pose proof (members_lookup st room Hst) as Hl.
    destruct (decide (members st room = ∅)) as [He|He].
    + rewrite delete_insert_eq. by apply delete_id.
    + rewrite insert_insert_eq. by apply insert_id.
  - destruct (roomHost st !! room) as [h|] eqn:E; simpl; [done|].
    apply lookup_insert_eq.
Qed.

Lemma state_ext (a b : State) :
  onlineUsers a = onlineUsers b → roomHost a = roomHost b →
  sockets a = sockets b → rooms a = rooms b → a = b.
Proof. destruct a, b. simpl. by intros -> -> -> ->. Qed.

(** X19.  In a reachable state, the connect of a fresh socket followed at
    once by its disconnect gives back the whole state: the presence
    entries, the host slots, the connected sockets and the rooms. *)
Theorem connect_disconnect_restores_state (c : str) st :
  reachable st → c ∉ sockets st →
  exec (run [(c, Connection); (c, Disconnect)]) st = st.
Proof.
  intros Hst Hc. pose proof (reachable_no_empty_room st Hst) as Hne.
  apply reachable_inv in Hst. destruct Hst as [Hh Hp Hu Hi Hm Hn].
  rewrite !run_cons, run_nil, handle_disconnect_exec.
  assert (exec (handle c Connection) st =
            {| onlineUsers :=
                 onlineUsers st ++ [{| socketId := c; userId := [] |}];
               roomHost := roomHost st;
               sockets := {[c]} ∪ sockets st;
               rooms := <[c := {[c]} ∪ members st c]> (rooms st) |}) as ->
    by (unfold exec; by rewrite handle_connection).
  destruct (on_disconnect_spec c
              (dropped c {| onlineUsers :=
                   onlineUsers st ++ [{| socketId := c; userId := [] |}];
                 roomHost := roomHost st;
                 sockets := {[c]} ∪ sockets st;
                 rooms := <[c := {[c]} ∪ members st c]> (rooms st) |}))
    as (_ & Eu & Es & Er & Ehost).
  apply state_ext; rewrite ?Eu, ?Es, ?Er; simpl.
  - rewrite filter_app, filter_others by (by rewrite <- Hp).
    by rewrite filter_cons_False, app_nil_r by (simpl; tauto).
  - apply map_eq. intros r. rewrite Ehost. simpl.
    destruct (decide (roomHost st !! r = Some c)) as [E|E]; [|done].
    by destruct Hc; eapply Hh.
  - set_solver.
  - apply map_eq. intros r. rewrite lookup_omap.
    assert (∀ s, rooms st !! r = Some s → s ∖ {[c]} = s) as Hkeep.
    { intros s Hs. apply Hm in Hs. set_solver. }
    destruct (decide (r = c)) as [->|Hrc].
    + rewrite lookup_insert_eq. simpl. unfold members.
      destruct (rooms st !! c) as [s|] eqn:E; simpl.
      * assert (({[c]} ∪ s) ∖ {[c]} = s) as ->
          by (specialize (Hkeep s eq_refl); set_solver).
        rewrite decide_False; [done|]. by apply (Hne c).
      * rewrite decide_True; [done | set_solver].
    + rewrite lookup_insert_ne by done.
      destruct (rooms st !! r) as [s|] eqn:E; simpl; [|done].
      rewrite (Hkeep s eq_refl). rewrite decide_False; [done|].
      by apply (Hne r).
Qed.

(** ** Presence updates *)

Lemma on_chat_message_output sid payload now st e :
  e ∈ output (on_chat_message sid payload now) st →
  ∃ m, sent_event e = chat_message m.
Proof.
  unfold on_chat_message, output.
  destruct payload as [p|]; [|by intros []%elem_of_nil].
  destruct (trimmedMessage (Some p)) as [m|]; [|by intros []%elem_of_nil].
  destruct (falsy m); [by intros []%elem_of_nil|].
  simpl. intros ->%list_elem_of_singleton. by eexists.
Qed.

Lemma signal_output sid room to v st e :
  e ∈ output (on_rtc_offer sid room to v) st
  ∨ e ∈ output (on_rtc_answer sid room to v) st
  ∨ e ∈ output (on_rtc_ice sid room to v) st →
  sent_event e = rtc_offer sid v ∨ sent_event e = rtc_answer sid v
  ∨ sent_event e = rtc_ice sid v.
Proof.
  unfold on_rtc_offer, on_rtc_answer, on_rtc_ice, output.
  destruct (falsy room || falsy to || negb (truthy v)); simpl.
  - by intros [[]%elem_of_nil|[[]%elem_of_nil|[]%elem_of_nil]].
  - intros [->%list_elem_of_singleton|[->%list_elem_of_singleton
                                      | ->%list_elem_of_singleton]]; auto.
Qed.

Lemma on_meeting_end_output sid room st e :
  e ∈ output (on_meeting_end sid room) st →
  sent_event e = meeting_ended ∨ sent_event e = meeting_end_denied.
Proof.
  destruct (decide (room = [])) as [->|Hr]; [by intros []%elem_of_nil|].
  destruct (decide (roomHost st !! room = Some sid)) as [Hh|Hh].
  - destruct (decide (sid = [])) as [->|Hs].
    + unfold on_meeting_end, output. apply falsy_false in Hr as ->.
      run_m. rewrite Hh. simpl. intros ->%list_elem_of_singleton. by right.
    + destruct (on_meeting_end_host sid room st Hr Hs Hh) as [-> _].
      set (st1 := {| onlineUsers := _; roomHost := _; sockets := _;
                     rooms := _ |}).
      destruct (leave_loop room (elements (members st room)) st1) as (-> & _).
      intros ->%list_elem_of_singleton. by left.
  - unfold output. rewrite on_meeting_end_denied by done. simpl.
    intros ->%list_elem_of_singleton. by right.
Qed.

Lemma on_meeting_end_onlineUsers sid room st :
  onlineUsers (exec (on_meeting_end sid room) st) = onlineUsers st.
Proof.
  destruct (decide (room ≠ [] ∧ sid ≠ [] ∧ roomHost st !! room = Some sid))
    as [(Hr & Hs & Hhost)|Hno].
  - by destruct (on_meeting_end_served sid room st Hr Hs Hhost) as (-> & _).
  - by rewrite on_meeting_end_refused.
Qed.

(** Events other than a connect, an announcement and a disconnect leave
    [onlineUsers] alone and emit no presence update. *)
Lemma other_events_keep_presence sid ev st :
  ev ≠ Connection → (∀ u, ev ≠ NewUser u) → ev ≠ Disconnect →
  onlineUsers (exec (handle sid ev) st) = onlineUsers st
  ∧ ∀ e l, e ∈ output (handle sid ev) st → sent_event e ≠ usersOnline l.
Proof.
  intros Hc Hn Hd.
  destruct ev as [|u|payload now|room|room|room to v|room to v|room to v
                 |room|room|]; [done | by destruct (Hn u) | ..| done].
  - cbn [handle]. rewrite on_chat_message_state. split; [done|].
    intros e l [m Hm]%on_chat_message_output. congruence.
  - cbn [handle]. destruct (decide (room = [])) as [->|Hr].
    + split; [done | by intros e l []%elem_of_nil].
    + unfold exec, output. rewrite on_rtc_join_eq by done. simpl.
      split; [done|]. by intros e l ->%list_elem_of_singleton.
  - cbn [handle]. destruct (decide (room = [])) as [->|Hr].
    + split; [done | by intros e l []%elem_of_nil].
    + unfold exec, output. rewrite on_rtc_leave_eq by done. simpl.
      split; [done|]. by intros e l ->%list_elem_of_singleton.
  - cbn [handle]. rewrite (proj1 (signal_state _ _ _ _ _)). split; [done|].
    intros e l He. destruct (signal_output sid room to v st e) as [?|[?|?]];
      [by left | congruence..].
  - cbn [handle]. rewrite (proj1 (proj2 (signal_state _ _ _ _ _))).
    split; [done|].
    intros e l He. destruct (signal_output sid room to v st e) as [?|[?|?]];
      [right; by left | congruence..].
  - cbn [handle]. rewrite (proj2 (proj2 (signal_state _ _ _ _ _))).
    split; [done|].
    intros e l He. destruct (signal_output sid room to v st e) as [?|[?|?]];
      [right; by right | congruence..].
  - cbn [handle]. rewrite on_meeting_end_onlineUsers. split; [done|].
    intros e l [?|?]%on_meeting_end_output; congruence.
  - change (handle sid (MeetingLeave room)) with (on_rtc_leave sid room).
    destruct (decide (room = [])) as [->|Hr].
    + split; [done | by intros e l []%elem_of_nil].
    + unfold exec, output. rewrite on_rtc_leave_eq by done. simpl.
      split; [done|]. by intros e l ->%list_elem_of_singleton.
Qed.

(** X20.  The presence update is always current and never missing: a
    presence update that an event makes the server emit goes to
    everybody and carries [onlineUsers] as the event leaves it, and an
    event that changes [onlineUsers] always emits one.  The events other
    than a connect, an announcement and a disconnect (chat, the three
    signals, join, the two leaves, the end of a meeting) never change
    [onlineUsers] and never emit a presence update. *)
Theorem presence_updates_are_current sid ev st :
  let st' := exec (handle sid ev) st in
  (∀ e l, e ∈ output (handle sid ev) st → sent_event e = usersOnline l →
          sent_target e = io_emit ∧ l = onlineUsers st')
  ∧ (onlineUsers st' ≠ onlineUsers st →
     broadcasts (onlineUsers st') (output (handle sid ev) st))
  ∧ (ev ≠ Connection → (∀ u, ev ≠ NewUser u) → ev ≠ Disconnect →
     onlineUsers st' = onlineUsers st
     ∧ ∀ e l, e ∈ output (handle sid ev) st → sent_event e ≠ usersOnline l).
Proof.
  cbv zeta. apply and_assoc.
  split; [|apply other_events_keep_presence].
  destruct ev as [|u|payload now|room|room|room to v|room to v|room to v
                 |room|room|].
  - unfold exec, output. rewrite handle_connection. simpl. split.
    + by intros e l ->%list_elem_of_singleton [= <-].
    + intros _. eexists. split; [apply list_elem_of_here|done].
  - cbn [handle]. destruct (decide (u = [])) as [->|Hu].
    + split; [by intros e l []%elem_of_nil | done].
    + unfold exec, output. rewrite on_newUser_eq by done. simpl. split.
      * by intros e l ->%list_elem_of_singleton [= <-].
      * intros _. eexists. split; [apply list_elem_of_here|done].
  - cbn [handle]. rewrite on_chat_message_state. split; [|done].
    intros e l [m Hm]%on_chat_message_output. congruence.
  - cbn [handle]. destruct (decide (room = [])) as [->|Hr].
    + split; [by intros e l []%elem_of_nil | done].
    + unfold exec, output. rewrite on_rtc_join_eq by done. simpl.
      split; [|done]. by intros e l ->%list_elem_of_singleton.
  - cbn [handle]. destruct (decide (room = [])) as [->|Hr].
    + split; [by intros e l []%elem_of_nil | done].
    + unfold exec, output. rewrite on_rtc_leave_eq by done. simpl.
      split; [|done]. by intros e l ->%list_elem_of_singleton.
  - cbn [handle]. rewrite (proj1 (signal_state _ _ _ _ _)). split; [|done].
    intros e l He. destruct (signal_output sid room to v st e) as [?|[?|?]];
      [by left | congruence..].
  - cbn [handle]. rewrite (proj1 (proj2 (signal_state _ _ _ _ _))).
    split; [|done].
    intros e l He. destruct (signal_output sid room to v st e) as [?|[?|?]];
      [right; by left | congruence..].
  - cbn [handle]. rewrite (proj2 (proj2 (signal_state _ _ _ _ _))).
    split; [|done].
    intros e l He. destruct (signal_output sid room to v st e) as [?|[?|?]];
      [right; by right | congruence..].
  - cbn [handle]. rewrite on_meeting_end_onlineUsers. split; [|done].
    intros e l [?|?]%on_meeting_end_output; congruence.
  - change (handle sid (MeetingLeave room)) with (on_rtc_leave sid room).
    destruct (decide (room = [])) as [->|Hr].
    + split; [by intros e l []%elem_of_nil | done].
    + unfold exec, output. rewrite on_rtc_leave_eq by done. simpl.
      split; [|done]. by intros e l ->%list_elem_of_singleton.
  - rewrite handle_disconnect_exec, handle_disconnect_output.
    destruct (on_disconnect_spec sid (dropped sid st)) as (-> & -> & _).
    simpl. split.
    + by intros e l ->%list_elem_of_singleton [= <-].
    + intros _. eexists. split; [apply list_elem_of_here|done].
Qed.

(** X21.  The host of the room that is named by the id of a socket can
    cut that socket off.  In a reachable state, when a connected socket
    [a] joins the room named by the id of another connected socket [v],
    which has no host yet, and then ends it, [v] is still connected but
    whatever is addressed to it with [socket.to(v)] reaches nobody. *)
Theorem ending_an_id_room_isolates_its_socket (a v : str) st :
  reachable st → a ∈ sockets st → v ∈ sockets st →
  roomHost st !! v = None →
  let st' := exec (run [(a, RtcJoin v); (a, MeetingEnd v)]) st in
  v ∈ sockets st'
  ∧ ∀ sid, recipients st' (socket_to sid v) = ∅.
Proof.
  intros Hst Ha Hv Hfree. cbv zeta. rewrite !run_cons, run_nil.
  assert (reachable (exec (handle a (RtcJoin v)) st)) as Hst1
    by by apply reachable_step.
  apply reachable_inv in Hst. apply reachable_inv in Hst1.
  assert (v ≠ []) as Hvne by (intros ->; by apply (inv_ids st Hst)).
  assert (a ≠ []) as Hane by (intros ->; by apply (inv_ids st Hst)).
  set (st1 := exec (handle a (RtcJoin v)) st) in *.
  assert (roomHost st1 !! v = Some a) as Hhost.
  { unfold st1. cbn [handle]. by rewrite on_rtc_join_host, Hfree. }
  assert (sockets st1 = sockets st) as Hsock.
  { unfold st1. cbn [handle]. unfold exec. by rewrite on_rtc_join_eq. }
  cbn [handle].
  destruct (on_meeting_end_served a v st1 Hvne Hane Hhost)
    as (_ & _ & Hs & _ & Hm).
  split; [by rewrite Hs, Hsock|].
  intros sid. cbn [recipients]. apply set_eq. intros c.
  rewrite elem_of_difference, Hm. split; [|set_solver].
  intros [[Hc Hnot] _]. exfalso. apply Hnot.
  unfold members in Hc. destruct (rooms st1 !! v) as [s|] eqn:E;
    simpl in Hc; [|set_solver].
  by apply (inv_members st1 Hst1 v s).
Qed.

(** ** The further properties at concrete inputs *)

Lemma origins_are_entries_witness :
  js "http://a.example"
    ∈ origins (Some (js " http://a.example ,, https://b.example"))
  ∧ is_entry (js "http://a.example").
Proof.
  assert (js "http://a.example"
            ∈ origins (Some (js " http://a.example ,, https://b.example")))
    as H by (vm_compute; apply list_elem_of_here).
  exact (conj H (origins_are_entries _ _ H)).
Defined.

Lemma is_entry_intro (e : str) :
  e ≠ [] → 44 ∉ e → trim e = e → is_entry e.
Proof.
  intros Hne Hc Ht. split_and!; [done..|]. rewrite <- Ht. apply trim_trimmed.
Qed.

Lemma origins_of_joined_entries_witness :
  Forall is_entry [js "http://a.example"; js "https://b.example"]
  ∧ origins (Some (join_comma [js "http://a.example"; js "https://b.example"]))
    = [js "http://a.example"; js "https://b.example"].
Proof.
  assert (Forall is_entry [js "http://a.example"; js "https://b.example"])
    as H.
  { apply Forall_cons_2; [|apply Forall_cons_2; [|apply Forall_nil_2]];
      (apply is_entry_intro;
       [done | apply (bool_decide_unpack _); by vm_compute | by vm_compute]). }
  exact (conj H (origins_of_joined_entries _ H)).
Defined.

Lemma appended_rules_only_add_witness :
  [js "http://a.example"] ≠ []
  ∧ isAllowedOrigin [js "http://a.example"] (Some (js "https://b.example"))
    = Returns false
  ∧ isAllowedOrigin ([js "http://a.example"] ++ [js "https://b.example"])
      (Some (js "https://b.example"))
    = check_rules [js "https://b.example"] (js "https://b.example").
Proof.
  assert ([js "http://a.example"] ≠ []) as Hne by done.
  assert (isAllowedOrigin [js "http://a.example"]
            (Some (js "https://b.example")) = Returns false)
    as Hno by by vm_compute.
  destruct (appended_rules_only_add [js "http://a.example"]
              [js "https://b.example"] (Some (js "https://b.example")) Hne)
    as (_ & _ & Hrest).
  destruct (Hrest Hno) as (o & [= <-] & Heq).
  exact (conj Hne (conj Hno Heq)).
Defined.

Lemma plain_rules_admit_witness :
  Forall (λ rule : str, 42 ∉ rule)
    [js "http://a.example"; js "https://x.netlify.app"]
  ∧ js "http://evil.netlify.app" ≠ []
  ∧ isAllowedOrigin [js "http://a.example"; js "https://x.netlify.app"]
      (Some (js "http://evil.netlify.app")) = Returns true.
Proof.
  assert (Forall (λ rule : str, 42 ∉ rule)
            [js "http://a.example"; js "https://x.netlify.app"]) as Hplain.
  { apply Forall_cons_2; [|apply Forall_cons_2; [|apply Forall_nil_2]];
      (apply (bool_decide_unpack _); by vm_compute). }
  assert (js "http://evil.netlify.app" ≠ []) as Ho by done.
  destruct (plain_rules_admit _ _ Hplain Ho) as [[_ Hadmit] _].
  split_and!; [exact Hplain | exact Ho |].
  apply Hadmit. right. right. split.
  - by exists (js "http://evil").
  - exists (js "https://x.netlify.app"). split.
    + apply list_elem_of_further, list_elem_of_here.
    + by exists (js "https://x").
Defined.

Lemma netlify_rule_admits_all_netlify_witness :
  js "https://x.netlify.app" ∈ [js "https://x.netlify.app"]
  ∧ (42 ∉ js "https://x.netlify.app")
  ∧ netlify_app `suffix_of` js "https://x.netlify.app"
  ∧ netlify_app `suffix_of` js "http://evil.netlify.app"
  ∧ (isAllowedOrigin [js "https://x.netlify.app"]
       (Some (js "http://evil.netlify.app")) = Returns true
     ∨ isAllowedOrigin [js "https://x.netlify.app"]
         (Some (js "http://evil.netlify.app")) = Throws).
Proof.
  assert (js "https://x.netlify.app" ∈ [js "https://x.netlify.app"])
    as Hin by apply list_elem_of_here.
  assert (42 ∉ js "https://x.netlify.app") as Hplain.
  { apply (bool_decide_unpack _). by vm_compute. }
  assert (netlify_app `suffix_of` js "https://x.netlify.app") as Hrule
    by by exists (js "https://x").
  assert (netlify_app `suffix_of` js "http://evil.netlify.app") as Ho
    by by exists (js "http://evil").
  exact (conj Hin (conj Hplain (conj Hrule (conj Ho
           (netlify_rule_admits_all_netlify _ _ _ Hin Hplain Hrule Ho))))).
Defined.

Lemma malformed_wildcard_throws_witness :
  js "*.netlify.app" ≠ [42]
  ∧ ∀ rest o, o ≠ [] →
      isAllowedOrigin (js "*.netlify.app" :: rest) (Some o) = Throws.
Proof.
  assert (js "*.netlify.app" ≠ [42]) as Hne by done.
  split; [exact Hne|].
  apply (proj2 (malformed_wildcard_throws (js "*.netlify.app") Hne)).
  by left.
Defined.

Lemma wildcard_admits_rule_characters_witness :
  js "https://*.netlify.app" ≠ [42]
  ∧ 42 ∈ js "https://*.netlify.app"
  ∧ check_rules [js "https://*.netlify.app"] (js "https:///.netlify.app")
    = Returns true
  ∧ ((∀ ch, ch ∈ js "https:///.netlify.app" →
            ch ∈ js "https://*.netlify.app" ∨ ch = 46)
     ∨ check_rules [] (js "https:///.netlify.app") = Returns true)
  ∧ check_rules [js "https://*.netlify.app"; js "https://foo.netlify.app"]
      (js "https://foo.netlify.app")
    = check_rules [js "https://foo.netlify.app"] (js "https://foo.netlify.app").
Proof.
  assert (js "https://*.netlify.app" ≠ [42]) as Hne by done.
  assert (42 ∈ js "https://*.netlify.app") as Hstar.
  { apply (bool_decide_unpack _). by vm_compute. }
  assert (check_rules [js "https://*.netlify.app"]
            (js "https:///.netlify.app") = Returns true)
    as Hyes by by vm_compute.
  destruct (wildcard_admits_rule_characters (js "https://*.netlify.app") []
              (js "https:///.netlify.app") Hne Hstar) as [Hadm _].
  destruct (wildcard_admits_rule_characters (js "https://*.netlify.app")
              [js "https://foo.netlify.app"] (js "https://foo.netlify.app")
              Hne Hstar) as [_ Hother].
  assert (111 ∈ js "https://foo.netlify.app") as Hf.
  { apply (bool_decide_unpack _). by vm_compute. }
  assert (111 ∉ js "https://*.netlify.app") as Hnf.
  { apply (bool_decide_unpack _). by vm_compute. }
  assert (111 ≠ 46) as Hnd by done.
  destruct (Hother 111 Hf Hnf Hnd) as [_ Hpass].
  split_and!; [exact Hne | exact Hstar | exact Hyes | exact (Hadm Hyes) |].
  apply Hpass. intros Hbad%nothing_to_repeat_spec.
  vm_compute in Hbad. discriminate Hbad.
Defined.

Lemma single_star_repeats_previous_witness :
  (42 ∉ js "https:/") ∧ (42 ∉ js ".netlify.app") ∧ 47 ≠ 42 ∧ 47 ≠ 92
  ∧ check_rules [js "https:/" ++ 47 :: 42 :: js ".netlify.app"]
      (js "https:/" ++ replicate 3 47 ++ js ".netlify.app") = Returns true.
Proof.
  assert (42 ∉ js "https:/") as Hp.
  { apply (bool_decide_unpack _). by vm_compute. }
  assert (42 ∉ js ".netlify.app") as Hq.
  { apply (bool_decide_unpack _). by vm_compute. }
  assert (47 ≠ 42) as H1 by done.
  assert (47 ≠ 92) as H2 by done.
  split_and!; [exact Hp | exact Hq | exact H1 | exact H2 |].
  apply (proj1 (single_star_repeats_previous (js "https:/")
                  (js ".netlify.app") 47 [] _ Hp Hq H1 H2)).
  by exists 3%nat.
Defined.

Lemma one_entry_per_connection_witness :
  reachable hosted
  ∧ length (onlineUsers hosted) = size (sockets hosted)
  ∧ NoDup (socketId <$> onlineUsers hosted)
  ∧ ∀ s, s ∈ sockets hosted
         ↔ ∃ user, user ∈ onlineUsers hosted ∧ socketId user = s.
Proof.
  exact (conj hosted_reachable (one_entry_per_connection _ hosted_reachable)).
Defined.

Lemma announce_rewrites_own_entry_only_witness :
  reachable two_connected ∧ sock1 ∈ sockets two_connected ∧ js "u" ≠ []
  ∧ onlineUsers (exec (handle sock1 (NewUser (js "u"))) two_connected) =
      (λ user, if decide (socketId user = sock1)
               then {| socketId := sock1; userId := js "u" |} else user)
        <$> onlineUsers two_connected.
Proof.
  assert (sock1 ∈ sockets two_connected) as H1 by by vm_compute.
  assert (js "u" ≠ []) as Hu by done.
  exact (conj two_connected_reachable (conj H1 (conj Hu
           (announce_rewrites_own_entry_only _ _ _
              two_connected_reachable H1 Hu)))).
Defined.


Lemma join_notifies_other_members_witness :
  room2 ≠ []
  ∧ ∃ e, output (handle sock2 (RtcJoin room2)) hosted = [e]
         ∧ sent_event e = rtc_joined sock2
         ∧ sent_target e = socket_to sock2 room2
         ∧ delivered_to e =
             (if decide (room2 = sock2) then ∅
              else ({[sock2]} ∪ members hosted room2) ∖ members hosted sock2)
         ∧ (sock2 ∈ members hosted sock2 →
            delivered_to e = members hosted room2 ∖ members hosted sock2)
         ∧ (members hosted sock2 = ∅ → room2 ≠ sock2 →
            delivered_to e = {[sock2]} ∪ members hosted room2)
         ∧ members (exec (handle sock2 (RtcJoin room2)) hosted) room2
           = {[sock2]} ∪ members hosted room2
         ∧ ∀ r, r ≠ room2 →
                members (exec (handle sock2 (RtcJoin room2)) hosted) r
                = members hosted r.
Proof.
  assert (room2 ≠ []) as H by done.
  exact (conj H (join_notifies_other_members sock2 room2 hosted H)).
Defined.

Lemma leave_notifies_remaining_members_witness :
  room1 ≠ []
  ∧ (MeetingLeave room1 = RtcLeave room1
     ∨ MeetingLeave room1 = MeetingLeave room1)
  ∧ ∃ e, output (handle sock2 (MeetingLeave room1)) hosted = [e]
         ∧ sent_event e = rtc_left sock2
         ∧ sent_target e = socket_to sock2 room1
         ∧ delivered_to e =
             (if decide (room1 = sock2) then ∅
              else members hosted room1 ∖ ({[sock2]} ∪ members hosted sock2))
         ∧ members (exec (handle sock2 (MeetingLeave room1)) hosted) room1
           = members hosted room1 ∖ {[sock2]}
         ∧ (∀ r, r ≠ room1 →
                 members (exec (handle sock2 (MeetingLeave room1)) hosted) r
                 = members hosted r)
         ∧ roomHost (exec (handle sock2 (MeetingLeave room1)) hosted)
           = roomHost hosted
         ∧ onlineUsers (exec (handle sock2 (MeetingLeave room1)) hosted)
           = onlineUsers hosted.
Proof.
  assert (room1 ≠ []) as H by done.
  assert (MeetingLeave room1 = RtcLeave room1
          ∨ MeetingLeave room1 = MeetingLeave room1) as Hev by by right.
  exact (conj H (conj Hev
           (leave_notifies_remaining_members sock2 room1 _ hosted H Hev))).
Defined.

Lemma host_keeps_authority_after_leaving_witness :
  reachable hosted ∧ sock1 ∈ sockets hosted
  ∧ roomHost hosted !! room1 = Some sock1
  ∧ (RtcLeave room1 = RtcLeave room1 ∨ RtcLeave room1 = MeetingLeave room1)
  ∧ roomHost (exec (handle sock1 (RtcLeave room1)) hosted) !! room1
    = Some sock1
  ∧ output (handle sock1 (MeetingEnd room1))
      (exec (handle sock1 (RtcLeave room1)) hosted) =
      [{| sent_at := exec (handle sock1 (RtcLeave room1)) hosted;
          sent_target := io_to room1; sent_event := meeting_ended |}]
  ∧ sock1 ∉ recipients (exec (handle sock1 (RtcLeave room1)) hosted)
              (io_to room1).
Proof.
  assert (sock1 ∈ sockets hosted) as H1 by by vm_compute.
  assert (roomHost hosted !! room1 = Some sock1) as Hh by by vm_compute.
  assert (RtcLeave room1 = RtcLeave room1
          ∨ RtcLeave room1 = MeetingLeave room1) as Hev by by left.
  exact (conj hosted_reachable (conj H1 (conj Hh (conj Hev
           (host_keeps_authority_after_leaving sock1 room1 _ hosted
              hosted_reachable H1 Hh Hev))))).
Defined.

Lemma ended_room_is_free_witness :
  reachable hosted ∧ sock1 ∈ sockets hosted
  ∧ roomHost hosted !! room1 = Some sock1
  ∧ (∀ c, handle c (MeetingEnd room1)
            (exec (handle sock1 (MeetingEnd room1)) hosted) =
            ((), exec (handle sock1 (MeetingEnd room1)) hosted,
             [{| sent_at := exec (handle sock1 (MeetingEnd room1)) hosted;
                 sent_target := socket_emit c;
                 sent_event := meeting_end_denied |}]))
  ∧ (∀ c, roomHost (exec (handle c (RtcJoin room1))
                      (exec (handle sock1 (MeetingEnd room1)) hosted))
            !! room1 = Some c).
Proof.
  assert (sock1 ∈ sockets hosted) as H1 by by vm_compute.
  assert (roomHost hosted !! room1 = Some sock1) as Hh by by vm_compute.
  exact (conj hosted_reachable (conj H1 (conj Hh
           (ended_room_is_free sock1 room1 hosted hosted_reachable H1 Hh)))).
Defined.

Lemma join_then_leave_restores_rooms_witness :
  reachable hosted ∧ room2 ≠ [] ∧ (sock2 ∉ members hosted room2)
  ∧ (RtcLeave room2 = RtcLeave room2 ∨ RtcLeave room2 = MeetingLeave room2)
  ∧ rooms (exec (run [(sock2, RtcJoin room2); (sock2, RtcLeave room2)]) hosted)
    = rooms hosted
  ∧ sockets (exec (run [(sock2, RtcJoin room2); (sock2, RtcLeave room2)])
               hosted)
    = sockets hosted
  ∧ onlineUsers (exec (run [(sock2, RtcJoin room2); (sock2, RtcLeave room2)])
                   hosted)
    = onlineUsers hosted
  ∧ roomHost (exec (run [(sock2, RtcJoin room2); (sock2, RtcLeave room2)])
                hosted) !! room2
    = Some (default sock2 (roomHost hosted !! room2)).
Proof.
  assert (room2 ≠ []) as Hr by done.
  assert (sock2 ∉ members hosted room2) as Hout.
  { apply (bool_decide_unpack _). by vm_compute. }
  assert (RtcLeave room2 = RtcLeave room2
          ∨ RtcLeave room2 = MeetingLeave room2) as Hev by by left.
  exact (conj hosted_reachable (conj Hr (conj Hout (conj Hev
           (join_then_leave_restores_rooms sock2 room2 _ hosted
              hosted_reachable Hr Hout Hev))))).
Defined.

Lemma connect_disconnect_restores_state_witness :
  reachable hosted ∧ (sock3 ∉ sockets hosted)
  ∧ exec (run [(sock3, Connection); (sock3, Disconnect)]) hosted = hosted.
Proof.
  assert (sock3 ∉ sockets hosted) as Hfresh.
  { apply (bool_decide_unpack _). by vm_compute. }
  exact (conj hosted_reachable (conj Hfresh
           (connect_disconnect_restores_state sock3 hosted
              hosted_reachable Hfresh))).
Defined.

Lemma ending_an_id_room_isolates_its_socket_witness :
  reachable two_connected
  ∧ sock1 ∈ sockets two_connected ∧ sock2 ∈ sockets two_connected
  ∧ roomHost two_connected !! sock2 = None
  ∧ sock2 ∈ sockets (exec (run [(sock1, RtcJoin sock2);
                                (sock1, MeetingEnd sock2)]) two_connected)
  ∧ ∀ sid, recipients (exec (run [(sock1, RtcJoin sock2);
                                  (sock1, MeetingEnd sock2)]) two_connected)
             (socket_to sid sock2) = ∅.
Proof.
  assert (sock1 ∈ sockets two_connected) as H1 by by vm_compute.
  assert (sock2 ∈ sockets two_connected) as H2 by by vm_compute.
  assert (roomHost two_connected !! sock2 = None) as Hfree by by vm_compute.
  exact (conj two_connected_reachable (conj H1 (conj H2 (conj Hfree
           (ending_an_id_room_isolates_its_socket sock1 sock2 two_connected
              two_connected_reachable H1 H2 Hfree))))).
Defined.

(** The rule of the comment on line 15 does not admit a netlify
    subdomain; it admits the same text with slashes for the star. *)
Example wildcard_rule_of_the_comment :
  isAllowedOrigin [js "https://*.netlify.app"]
    (Some (js "https://foo.netlify.app")) = Returns false
  ∧ isAllowedOrigin [js "https://*.netlify.app"]
      (Some (js "https:///.netlify.app")) = Returns true.
Proof. split; by vm_compute. Qed.

(** Who hears of a join or a leave follows the id room of the socket:
    the members that sit in the id room of the joiner are not told, a
    joiner whose id room is gone is told of its own join, and a member
    that sits in the id room of the leaver is not told of the leave. *)
Example join_and_leave_follow_the_id_room :
  (let st := exec (run [(sock3, Connection); (sock2, RtcJoin sock1);
                        (sock2, RtcJoin room1); (sock3, RtcJoin room1)])
               two_connected in
   ∃ e, output (handle sock1 (RtcJoin room1)) st = [e]
        ∧ delivered_to e = {[sock3]})
  ∧ (let st := exec (run [(sock1, RtcLeave sock1); (sock2, RtcJoin room1)])
                 two_connected in
     ∃ e, output (handle sock1 (RtcJoin room1)) st = [e]
          ∧ delivered_to e = {[sock1; sock2]})
  ∧ (let st := exec (run [(sock3, Connection); (sock2, RtcJoin sock1);
                          (sock1, RtcJoin room1); (sock2, RtcJoin room1);
                          (sock3, RtcJoin room1)])
                 two_connected in
     ∃ e, output (handle sock1 (RtcLeave room1)) st = [e]
          ∧ delivered_to e = {[sock3]}).
Proof.
  split_and!; (eexists; split; [reflexivity|]; by vm_compute).
Qed.
